(** * Advanced-JavaScript: closures and promises

    A shallow embedding of the runnable snippets of the repository and of
    the part of the host they run on.
    - [Bank]: the [BankAccount] constructor of the closures chapter.
    - [JS]: promises as the scripts use them ([new Promise], [then],
      [catch], [Promise.all], [Promise.race], [setTimeout], [console]),
      the promise-chaining script ([fetchData] and its chain) and the
      async/await script ([getUserData], [getBlogData]).
    - [Memo]: the [memoize] higher-order function of the closures chapter.
    - [Closures]: [counter] and [createButtonHandler] of the closures
      chapter.
    - [Iterators]: [myIterator] of the iterators chapter.
    - [Async]: the promise settled by its executor and the event loop
      example, and the outcome of a chain of handlers.
    - [BankFacts], [JSFacts], [MemoFacts], [ClosureFacts], [IteratorFacts],
      [AsyncFacts]: what is proved of them.

    JavaScript numbers are modelled by [Z]: the integer-valued numbers, on
    which the arithmetic of the snippets is exact. *)

From Stdlib Require Import Ascii.
From stdpp Require Import base numbers list list_numbers strings pretty gmap.

(* ===================================================================== *)
(** ** BankAccount (closures chapter, "Private Data") *)
(* ===================================================================== *)

Module Bank.
Local Open Scope Z_scope.

(** The object built by [new BankAccount(initialBalance)]: the private
    variable [balance] captured by the three methods, and the lines the
    methods write with [console.log]. *)
Record BankAccount := mkAccount {
  balance : Z;
  console : list string;
}.

(** [function BankAccount(initialBalance) { let balance = initialBalance; ... }] *)
Definition new_BankAccount (initialBalance : Z) : BankAccount :=
  {| balance := initialBalance; console := [] |}.

(** [this.deposit = function(amount) { balance += amount; console.log(...) }] *)
Definition deposit (amount : Z) (acct : BankAccount) : BankAccount :=
  let balance' := balance acct + amount in
  {| balance := balance';
     console := console acct ++
       ["Deposited: " +:+ pretty amount +:+ ", New Balance: " +:+ pretty balance'] |}.

(** [this.withdraw = function(amount) { if (balance >= amount) {...} else {...} }] *)
Definition withdraw (amount : Z) (acct : BankAccount) : BankAccount :=
  if balance acct >=? amount then
    let balance' := balance acct - amount in
    {| balance := balance';
       console := console acct ++
         ["Withdrew: " +:+ pretty amount +:+ ", New Balance: " +:+ pretty balance'] |}
  else
    {| balance := balance acct;
       console := console acct ++ ["Insufficient funds"] |}.

(** [this.getBalance = function() { return balance; }] *)
Definition getBalance (acct : BankAccount) : Z := balance acct.

(** A method call on an account that changes it. *)
Inductive Call :=
| Deposit (amount : Z)
| Withdraw (amount : Z).


Definition call (c : Call) (acct : BankAccount) : BankAccount :=
  match c with
  | Deposit a => deposit a acct
  | Withdraw a => withdraw a acct
  end.

(** The calls of a client, made one after the other. *)
Definition run (cs : list Call) (acct : BankAccount) : BankAccount :=
  foldl (fun a c => call c a) acct cs.




(** The script under the constructor. *)
Definition myAccount : BankAccount :=
  withdraw 30 (deposit 50 (new_BankAccount 100)).

End Bank.

(* ===================================================================== *)
(** ** Promises: the runtime the promise scripts run on *)
(* ===================================================================== *)

(** [new Promise], [then], [catch], [Promise.all], [Promise.race],
    [setTimeout] and [console] belong to the host. They are modelled after
    the language definition as far as the scripts use them: promises are
    settled with values that are not themselves promises, reactions run as
    jobs of a first-in first-out queue, timers fire in the order of their
    due time. Function objects of the host (the resolving functions of a
    promise, the element functions of [Promise.all]) are kept as data;
    functions of the scripts are Rocq functions. *)

Module JS.

#[local] Set Warnings "-register-all".

Abbreviation pid := nat.

Inductive Value :=
| VUndefined
| VNum (n : Z)
| VStr (s : string)
| VArr (xs : list Value)
| VObj (fields : list (string * Value)).

(** How a promise ends. *)
Inductive Outcome :=
| OFulfilled (v : Value)
| ORejected (reason : Value).

Inductive PromiseState :=
| Pending
| Fulfilled (v : Value)
| Rejected (reason : Value).

Definition state_of (o : Outcome) : PromiseState :=
  match o with
  | OFulfilled v => Fulfilled v
  | ORejected r => Rejected r
  end.

(** One [console.log(...)] or [console.error(...)] call. *)
Inductive Level := Log | Error.

Record LogEntry := mkEntry { level : Level; args : list Value }.

Definition log (vs : list Value) : LogEntry := mkEntry Log vs.
Definition error (vs : list Value) : LogEntry := mkEntry Error vs.

(** How a function of the script completes. *)
Inductive Completion :=
| Normal (v : Value)
| Throw (e : Value).

(** A function of the script given to [then] or [catch]: what it writes to
    the console and how it completes. *)
Definition Handler := Value → list LogEntry * Completion.

Inductive Callback :=
| CbUser (h : Handler)
| CbResolve (p : pid)                 (* the [resolve] function of promise [p] *)
| CbReject (p : pid)                  (* the [reject] function of promise [p] *)
| CbAllElement (a : nat) (index : nat).
                                      (* [Promise.all] resolve element function *)

(** What [then] registers: the two handlers ([None] for a handler that is
    left out) and the promise [then] returns. *)
Record Reaction := mkReaction {
  on_fulfilled : option Callback;
  on_rejected : option Callback;
  derived : pid;
}.

Record Job := mkJob { job_reaction : Reaction; job_outcome : Outcome }.

Record PromiseRec := mkPromise {
  pstate : PromiseState;
  reactions : list Reaction;
}.

(** The record shared by the element functions of one [Promise.all] call:
    the values collected so far (a slot is [None] until its element function
    is called), the count of what remains, and the promise to resolve. *)
Record AllRec := mkAll {
  all_values : list (option Value);
  all_remaining : nat;
  all_capability : pid;
}.

(** A function handed to [setTimeout], as the call it makes. *)
Record Task := mkTask { task_callback : Callback; task_argument : Value }.

Record Timer := mkTimer { due : nat; timer_task : Task }.

Record State := mkState {
  promises : list PromiseRec;
  alls : list AllRec;
  jobs : list Job;
  timers : list Timer;
  clock : nat;
  console : list LogEntry;
}.

Definition initial : State :=
  {| promises := []; alls := []; jobs := []; timers := []; clock := 0;
     console := [] |}.

Definition set_promises (ps : list PromiseRec) (st : State) : State :=
  {| promises := ps; alls := alls st; jobs := jobs st; timers := timers st;
     clock := clock st; console := console st |}.

Definition set_alls (al : list AllRec) (st : State) : State :=
  {| promises := promises st; alls := al; jobs := jobs st; timers := timers st;
     clock := clock st; console := console st |}.

Definition set_jobs (js : list Job) (st : State) : State :=
  {| promises := promises st; alls := alls st; jobs := js; timers := timers st;
     clock := clock st; console := console st |}.

Definition set_timers (ts : list Timer) (st : State) : State :=
  {| promises := promises st; alls := alls st; jobs := jobs st; timers := ts;
     clock := clock st; console := console st |}.

Definition set_clock (t : nat) (st : State) : State :=
  {| promises := promises st; alls := alls st; jobs := jobs st;
     timers := timers st; clock := t; console := console st |}.

Definition write (es : list LogEntry) (st : State) : State :=
  {| promises := promises st; alls := alls st; jobs := jobs st;
     timers := timers st; clock := clock st; console := console st ++ es |}.

(** The state of promise [p]; a reference to no promise reads as pending. *)
Definition state_at (st : State) (p : pid) : PromiseState :=
  match promises st !! p with
  | Some rec => pstate rec
  | None => Pending
  end.

(** *** Code that runs in a state *)

Definition M (A : Type) : Type := State → A * State.

Definition ret {A} (a : A) : M A := fun st => (a, st).

Definition bind {A B} (c : M A) (k : A → M B) : M B :=
  fun st => let '(a, st') := c st in k a st'.

Definition exec (f : State → State) : M unit := fun st => (tt, f st).

Notation "'let*' x := c 'in' k" := (bind c (fun x => k))
  (at level 10, x name, c at level 100, k at level 200).

(** *** Promises *)

(** [new Promise(...)], before the executor runs. *)
Definition new_promise : M pid := fun st =>
  (length (promises st),
   set_promises (promises st ++ [mkPromise Pending []]) st).

(** The resolving functions of a promise: the first call settles it and
    hands its reactions to the job queue, in the order they were registered;
    a call on a settled promise does nothing. *)
Definition settle (p : pid) (o : Outcome) (st : State) : State :=
  match promises st !! p with
  | Some (mkPromise Pending rs) =>
      set_jobs (jobs st ++ ((fun r => mkJob r o) <$> rs))
        (set_promises (<[p := mkPromise (state_of o) []]> (promises st)) st)
  | _ => st
  end.

Definition resolve_promise (p : pid) (v : Value) : State → State :=
  settle p (OFulfilled v).

Definition reject_promise (p : pid) (r : Value) : State → State :=
  settle p (ORejected r).

(** A reaction is registered with promise [p]: kept while [p] is pending,
    handed to the job queue at once when [p] is settled. *)
Definition perform_then (p : pid) (r : Reaction) (st : State) : State :=
  match promises st !! p with
  | Some (mkPromise Pending rs) =>
      set_promises (<[p := mkPromise Pending (rs ++ [r])]> (promises st)) st
  | Some (mkPromise (Fulfilled v) _) =>
      set_jobs (jobs st ++ [mkJob r (OFulfilled v)]) st
  | Some (mkPromise (Rejected e) _) =>
      set_jobs (jobs st ++ [mkJob r (ORejected e)]) st
  | None => st
  end.

(** [p.then(onFulfilled, onRejected)] *)
Definition then_ (p : pid) (onF onR : option Callback) : M pid :=
  let* d := new_promise in
  let* _ := exec (perform_then p (mkReaction onF onR d)) in
  ret d.

(** [p.catch(onRejected)] is [p.then(undefined, onRejected)]. *)
Definition catch_ (p : pid) (onR : Callback) : M pid :=
  then_ p None (Some onR).

(** [await p] inside a [try] block: the function goes on with [k] when [p]
    is fulfilled and with the [catch] block [kerr] when it is rejected; the
    promise returned settles as that part of the function completes. *)
Definition await_ (p : pid) (k kerr : Handler) : M pid :=
  then_ p (Some (CbUser k)) (Some (CbUser kerr)).

(** *** Promise.all *)

(** The array handed over when the last element arrives. *)
Definition array_of (slots : list (option Value)) : Value :=
  VArr (default VUndefined <$> slots).

(** One tick of the remaining-elements counter; at zero the promise of the
    [Promise.all] call is resolved with the collected values. *)
Definition all_countdown (a : nat) (st : State) : State :=
  match alls st !! a with
  | Some rec =>
      let remaining := all_remaining rec - 1 in
      let st' :=
        set_alls (<[a := mkAll (all_values rec) remaining (all_capability rec)]>
                    (alls st)) st in
      if decide (remaining = 0)
      then resolve_promise (all_capability rec) (array_of (all_values rec)) st'
      else st'
  | None => st
  end.

(** The resolve element function with index [i]: on its first call it
    stores the value at its own position and counts down. *)
Definition all_resolve_element (a i : nat) (v : Value) (st : State) : State :=
  match alls st !! a with
  | Some rec =>
      match all_values rec !! i with
      | Some None =>
          all_countdown a
            (set_alls (<[a := mkAll (<[i := Some v]> (all_values rec))
                                    (all_remaining rec) (all_capability rec)]>
                         (alls st)) st)
      | _ => st
      end
  | None => st
  end.

Definition new_all (capability : pid) : M nat := fun st =>
  (length (alls st), set_alls (alls st ++ [mkAll [] 1 capability]) st).

(** A place for one more element is made; its index is returned. *)
Definition all_push (a : nat) : M nat := fun st =>
  match alls st !! a with
  | Some rec =>
      (length (all_values rec),
       set_alls (<[a := mkAll (all_values rec ++ [None])
                              (S (all_remaining rec)) (all_capability rec)]>
                   (alls st)) st)
  | None => (0, st)
  end.

(** One round of the loop over the argument of [Promise.all]. *)
Definition all_add (a : nat) (result : pid) (p : pid) : M unit :=
  let* i := all_push a in
  let* _ := then_ p (Some (CbAllElement a i)) (Some (CbReject result)) in
  ret tt.

Fixpoint all_loop (a : nat) (result : pid) (ps : list pid) : M unit :=
  match ps with
  | [] => ret tt
  | p :: ps' => let* _ := all_add a result p in all_loop a result ps'
  end.

(** [Promise.all(ps)] *)
Definition promise_all (ps : list pid) : M pid :=
  let* result := new_promise in
  let* a := new_all result in
  let* _ := all_loop a result ps in
  let* _ := exec (all_countdown a) in
  ret result.

(** *** Promise.race *)

Fixpoint race_loop (result : pid) (ps : list pid) : M unit :=
  match ps with
  | [] => ret tt
  | p :: ps' =>
      let* _ := then_ p (Some (CbResolve result)) (Some (CbReject result)) in
      race_loop result ps'
  end.

(** [Promise.race(ps)] *)
Definition promise_race (ps : list pid) : M pid :=
  let* result := new_promise in
  let* _ := race_loop result ps in
  ret result.

(** The reaction [Promise.all] registers with its member number [i], and
    the one [Promise.race] registers with each member; [d] is the promise
    the call of [then] returns. *)
Definition all_reaction (a : nat) (result : pid) (i : nat) (d : pid) : Reaction :=
  mkReaction (Some (CbAllElement a i)) (Some (CbReject result)) d.


(** The places of a [Promise.all] record still waiting for their value. *)
Fixpoint unfilled (slots : list (option Value)) : nat :=
  match slots with
  | [] => 0
  | None :: slots' => S (unfilled slots')
  | Some _ :: slots' => unfilled slots'
  end.

(** *** Jobs *)

Definition call_callback (cb : Callback) (arg : Value) : M Completion :=
  fun st =>
  match cb with
  | CbUser h => let '(es, c) := h arg in (c, write es st)
  | CbResolve p => (Normal VUndefined, resolve_promise p arg st)
  | CbReject p => (Normal VUndefined, reject_promise p arg st)
  | CbAllElement a i => (Normal VUndefined, all_resolve_element a i arg st)
  end.

(** The promise returned by [then] takes the completion of the handler: a
    returned value fulfils it, a thrown one rejects it. *)
Definition outcome_of (c : Completion) : Outcome :=
  match c with
  | Normal v => OFulfilled v
  | Throw e => ORejected e
  end.

Definition settle_with (d : pid) (c : Completion) : State → State :=
  settle d (outcome_of c).

(** A reaction job: the handler for the outcome is called and its completion
    settles the derived promise; without a handler the outcome itself is
    passed on to the derived promise. *)
Definition run_job (j : Job) (st : State) : State :=
  let r := job_reaction j in
  match job_outcome j with
  | OFulfilled v =>
      match on_fulfilled r with
      | Some cb => let '(c, st') := call_callback cb v st in
                   settle_with (derived r) c st'
      | None => resolve_promise (derived r) v st
      end
  | ORejected e =>
      match on_rejected r with
      | Some cb => let '(c, st') := call_callback cb e st in
                   settle_with (derived r) c st'
      | None => reject_promise (derived r) e st
      end
  end.

Fixpoint run_jobs (fuel : nat) (st : State) : State :=
  match fuel with
  | O => st
  | S fuel' =>
      match jobs st with
      | [] => st
      | j :: js => run_jobs fuel' (run_job j (set_jobs js st))
      end
  end.

(** Jobs waiting and reactions registered: every job takes one away and
    none is ever added outside the script's own calls of [then]. *)
Definition weight (st : State) : nat :=
  length (jobs st) +
  sum_list ((fun rec => length (reactions rec)) <$> promises st).

(** The job queue is run until it is empty. *)
Definition drain (st : State) : State := run_jobs (weight st) st.

(** A producer settles promise [e.1] with outcome [e.2], and the jobs this
    sets off are run; a schedule is a sequence of such settlements. *)
Definition settle_and_drain (e : pid * Outcome) (st : State) : State :=
  drain (settle e.1 e.2 st).

Definition run_schedule (evs : list (pid * Outcome)) (st : State) : State :=
  foldl (fun s e => settle_and_drain e s) st evs.

(** The outcome the schedule has for promise [m]: that of its first
    settlement. *)
Fixpoint first_outcome (m : pid) (evs : list (pid * Outcome)) : option Outcome :=
  match evs with
  | [] => None
  | e :: evs' => if decide (e.1 = m) then Some e.2 else first_outcome m evs'
  end.

(** The state a settlement with outcome [o] leaves a promise in. *)
Definition settle_state (s : PromiseState) (o : Outcome) : PromiseState :=
  match s with
  | Pending => state_of o
  | _ => s
  end.

(** *** What holds of a [Promise.all] call while its members settle *)

(** Member [m] at position [i] against its place in the record: a filled
    place holds the value the member is fulfilled with; at an empty place
    the member is pending with the reaction of [Promise.all], or rejected. *)
Definition member_ok (st : State) (a : nat) (result : pid) (i : nat) (m : pid)
    (slot : option Value) : Prop :=
  match slot with
  | Some v => promises st !! m = Some (mkPromise (Fulfilled v) [])
  | None =>
      promises st !! m =
        Some (mkPromise Pending [all_reaction a result i (result + 1 + i)]) ∨
      ∃ r, promises st !! m = Some (mkPromise (Rejected r) [])
  end.

(** The state [s] of the promise of the call against the members. *)
Definition result_ok (st : State) (ms : list pid) (vals : list (option Value))
    (s : PromiseState) : Prop :=
  match s with
  | Pending => 0 < unfilled vals ∧ ∀ m r, m ∈ ms → state_at st m ≠ Rejected r
  | Fulfilled x => x = array_of vals ∧ unfilled vals = 0
  | Rejected r => ∃ m, m ∈ ms ∧ state_at st m = Rejected r
  end.


(** A reaction of the script: each of its handlers is left out or is a
    function of the script. *)
Definition script_handler (cb : option Callback) : Prop :=
  match cb with
  | None | Some (CbUser _) => True
  | Some _ => False
  end.

Definition waiter_ok (w : Reaction) : Prop :=
  script_handler (on_fulfilled w) ∧ script_handler (on_rejected w).

(** What the reaction [w] does with outcome [o]: the lines its handler
    writes and the outcome that goes to the promise [then] returned. *)
Definition react (cb : option Callback) (arg : Value) (o : Outcome)
    : list LogEntry * Outcome :=
  match cb with
  | Some (CbUser h) => ((h arg).1, outcome_of (h arg).2)
  | _ => ([], o)
  end.

Definition waiter_result (w : Reaction) (o : Outcome) : list LogEntry * Outcome :=
  match o with
  | OFulfilled v => react (on_fulfilled w) v o
  | ORejected e => react (on_rejected w) e o
  end.

Definition waiters_log (ws : list Reaction) (o : Outcome) : list LogEntry :=
  concat ((fun w => (waiter_result w o).1) <$> ws).

(** The outcome a settled promise has. *)
Definition settled_as (s : PromiseState) : option Outcome :=
  match s with
  | Pending => None
  | Fulfilled v => Some (OFulfilled v)
  | Rejected r => Some (ORejected r)
  end.


(** The reactions still held by a promise in state [s] that [ws] were
    registered on: a settled promise holds none. *)
Definition waiting (ws : list Reaction) (s : PromiseState) : list Reaction :=
  match s with Pending => ws | _ => [] end.

(** The call [a] with result promise [result] over the members [ms], awaited
    by the reactions [ws]; [c0] is the console before any of them ran. *)
Definition all_inv (a : nat) (result : pid) (ms : list pid)
    (ws : list Reaction) (c0 : list LogEntry)
    (vals : list (option Value)) (s : PromiseState) (st : State) : Prop :=
  jobs st = [] ∧
  alls st !! a = Some (mkAll vals (unfilled vals) result) ∧
  length vals = length ms ∧
  (∀ i m, ms !! i = Some m →
     ∃ slot, vals !! i = Some slot ∧ member_ok st a result i m slot) ∧
  (∀ i, i < length ms →
     ∃ s', promises st !! (result + 1 + i) = Some (mkPromise s' [])) ∧
  promises st !! result = Some (mkPromise s (waiting ws s)) ∧
  Forall waiter_ok ws ∧ NoDup (derived <$> ws) ∧
  (∀ w, w ∈ ws →
     result + length ms < derived w ∧
     promises st !! derived w =
       Some (mkPromise
               (match settled_as s with
                | None => Pending
                | Some o => state_of (waiter_result w o).2
                end) [])) ∧
  console st =
    c0 ++ match settled_as s with None => [] | Some o => waiters_log ws o end ∧
  result_ok st ms vals s.

(** What the schedule says of a promise that is pending before it. *)
Definition scheduled (x : pid) (evs : list (pid * Outcome)) : PromiseState :=
  match first_outcome x evs with
  | Some o => state_of o
  | None => Pending
  end.

(** *** What holds of a [Promise.race] call while its members settle *)


(** *** Timers *)

(** [setTimeout(task, delay)] *)
Definition set_timeout (t : Task) (delay : nat) : M unit :=
  exec (fun st => set_timers (timers st ++ [mkTimer (clock st + delay) t]) st).

(** The position of the timer to fire next: the earliest due time, and
    among equals the one set first. *)
Fixpoint next_timer_from (best : nat) (best_due : nat) (i : nat)
    (ts : list Timer) : nat :=
  match ts with
  | [] => best
  | t :: ts' =>
      if decide (due t < best_due)
      then next_timer_from i (due t) (S i) ts'
      else next_timer_from best best_due (S i) ts'
  end.

Definition next_timer (ts : list Timer) : option nat :=
  match ts with
  | [] => None
  | t :: ts' => Some (next_timer_from 0 (due t) 1 ts')
  end.

(** The timer at position [i] fires: it is taken off the list, the clock
    moves to its due time, its task runs, and the job queue is drained. *)
Definition fire_at (i : nat) (st : State) : State :=
  match timers st !! i with
  | Some t =>
      let st1 := set_clock (Nat.max (clock st) (due t))
                   (set_timers (delete i (timers st)) st) in
      let '(_, st2) := call_callback (task_callback (timer_task t))
                         (task_argument (timer_task t)) st1 in
      drain st2
  | None => st
  end.

(** One turn of the event loop: the next timer fires. *)
Definition fire (st : State) : State :=
  match next_timer (timers st) with
  | Some i => fire_at i st
  | None => st
  end.

Fixpoint fire_n (n : nat) (st : State) : State :=
  match n with
  | O => st
  | S n' => fire_n n' (fire st)
  end.

(** A script runs to its end, then its jobs, then its timers until none is
    left. *)
Definition run_script {A} (script : M A) : A * State :=
  let '(a, st) := script initial in
  let st' := drain st in
  (a, fire_n (length (timers st')) st').

(** *** What can happen, and what it leaves alone *)

(** [keeps st st']: every promise settled in [st] is in the same state in
    [st']. *)
Definition keeps (st st' : State) : Prop :=
  ∀ p, state_at st p ≠ Pending → state_at st' p = state_at st p.

(** Everything that can happen to a state: a job or a timer runs, or the
    script calls into the runtime. *)
Inductive step : State → State → Prop :=
| step_job st j js : jobs st = j :: js → step st (run_job j (set_jobs js st))
| step_fire st : step st (fire st)
| step_settle st p o : step st (settle p o st)
| step_new st : step st (new_promise st).2
| step_then st p onF onR : step st (then_ p onF onR st).2
| step_all st ps : step st (promise_all ps st).2
| step_race st ps : step st (promise_race ps st).2
| step_timeout st t delay : step st (set_timeout t delay st).2
| step_write st es : step st (write es st).


(** *** The promise-chaining script *)

Definition data_fetched : Value := VStr "✅ Data fetched successfully".
Definition error_fetching : Value := VStr "⛔ Error fetching data".

(** The function given to [setTimeout] in [fetchData], for promise [p]. *)
Definition fetchData_timeout (p : pid) : Task :=
  let success := true in
  if success then mkTask (CbResolve p) data_fetched
  else mkTask (CbReject p) error_fetching.

(** [function fetchData() { return new Promise((resolve, reject) => {...}) }] *)
Definition fetchData : M pid :=
  let* p := new_promise in
  let* _ := set_timeout (fetchData_timeout p) 3000 in
  ret p.

Definition on_data : Handler :=
  fun data => ([log [data]], Normal (VStr "Tech-Code_")).

Definition on_value : Handler :=
  fun value => ([log [value]], Normal VUndefined).

Definition on_error : Handler :=
  fun err => ([error [err]], Normal VUndefined).

(** [fetchData().then(...).then(...).catch(...)], on any promise in the
    place of [fetchData()]. *)
Definition chain (p : pid) : M pid :=
  let* d1 := then_ p (Some (CbUser on_data)) None in
  let* d2 := then_ d1 (Some (CbUser on_value)) None in
  catch_ d2 (CbUser on_error).

(** A chain [p.then(h1).then(h2)...] of any length, and the same chain
    closed by [.catch(hc)]. *)
Fixpoint then_chain (p : pid) (hs : list Handler) : M pid :=
  match hs with
  | [] => ret p
  | h :: hs' =>
      let* d := then_ p (Some (CbUser h)) None in
      then_chain d hs'
  end.

Definition chain_catch (p : pid) (hs : list Handler) (hc : Handler) : M pid :=
  let* d := then_chain p hs in
  catch_ d (CbUser hc).

(** The links of such a chain, as [then] and [catch] register them. *)
Definition then_link (h : Handler) (d : pid) : Reaction :=
  mkReaction (Some (CbUser h)) None d.

Definition catch_link (hc : Handler) (d : pid) : Reaction :=
  mkReaction None (Some (CbUser hc)) d.

(** [linked st q ds e]: in [st] a chain of [then] links leads from [q]
    through the promises [ds] to [e], each link on a pending promise. *)
Inductive linked (st : State) : pid → list pid → pid → Prop :=
| linked_nil q : linked st q [] q
| linked_cons q h d ds e :
    promises st !! q = Some (mkPromise Pending [then_link h d]) →
    linked st d ds e →
    linked st q (d :: ds) e.

Definition script : M (pid * pid) :=
  let* p := fetchData in
  let* d := chain p in
  ret (p, d).

(** *** The examples of [Promise.all] and [Promise.race] *)

Definition on_result : Handler :=
  fun result => ([log [result]], Normal VUndefined).

Definition on_error_log : Handler :=
  fun err => ([log [err]], Normal VUndefined).

(** [const promise1 = fetchData(); const promise2 = fetchData();
     const promise3 = fetchData();] *)
Definition three_fetches : M (list pid) :=
  let* promise1 := fetchData in
  let* promise2 := fetchData in
  let* promise3 := fetchData in
  ret [promise1; promise2; promise3].

(** [Promise.all([promise1, promise2, promise3]).then(...).catch(...)] *)
Definition all_example : M (list pid * pid) :=
  let* ps := three_fetches in
  let* both := promise_all ps in
  let* d := then_ both (Some (CbUser on_result)) None in
  let* _ := catch_ d (CbUser on_error_log) in
  ret (ps, both).

(** [Promise.race([promise1, promise2, promise3]).then(...).catch(...)] *)
Definition race_example : M (list pid * pid) :=
  let* ps := three_fetches in
  let* first := promise_race ps in
  let* d := then_ first (Some (CbUser on_result)) None in
  let* _ := catch_ d (CbUser on_error_log) in
  ret (ps, first).





(** Modelled from the spec: the error taxonomy names a
    [BatchAggregateFailure] that wraps the first member failure together
    with the member states at failure time; the code builds no such value.
    As a value of the runtime it is an object with the reason in one of its
    fields. *)
Definition is_batch_aggregate_failure (x reason : Value) : Prop :=
  ∃ fields k, x = VObj fields ∧ (k, reason) ∈ fields.

(** The claim that a [Promise.all] whose member [m] rejects with reason [r]
    ends with an aggregate failure around [r]. *)
Definition all_fails_with_aggregate (st : State) (ms : list pid) (m : pid)
    (r : Value) : Prop :=
  let built := promise_all ms st in
  let st' := settle_and_drain (m, ORejected r) built.2 in
  ∃ x, state_at st' built.1 = Rejected x ∧ is_batch_aggregate_failure x r.

(** *** The async/await script *)

(** [function fetchUserData()] *)
Definition user_data : Value :=
  VObj [("name", VStr "Tech-Coder_"); ("url", VStr "https://tech-coder.com")].

Definition fetchUserData : M pid :=
  let* p := new_promise in
  let* _ := set_timeout (mkTask (CbResolve p) user_data) 3000 in
  ret p.

(** [async function getUserData()]: the [try] block up to [await], and
    after it; the [catch] block. *)
Definition user_resume : Handler :=
  fun userData =>
    ([log [VStr "User data fetched successfully"];
      log [VStr "User data: "; userData]],
     Normal VUndefined).

Definition user_catch : Handler :=
  fun err => ([log [VStr "Error fetching data"; err]], Normal VUndefined).

Definition getUserData : M (pid * pid) :=
  let* _ := exec (write [log [VStr "Fetching user data..."]]) in
  let* p := fetchUserData in
  let* finished :=
    await_ p user_resume user_catch in
  ret (p, finished).


Definition fetchPostData_delay (delay : nat) : M pid :=
  let* p := new_promise in
  let* _ := set_timeout (mkTask (CbResolve p) (VStr "Post Data fetched"))
              delay in
  ret p.

Definition fetchCommentData_delay (delay : nat) : M pid :=
  let* p := new_promise in
  let* _ := set_timeout (mkTask (CbResolve p) (VStr "Comment data fetched."))
              delay in
  ret p.

Definition fetchPostData : M pid := fetchPostData_delay 2000.
Definition fetchCommentData : M pid := fetchCommentData_delay 3000.

(** [const [postData, commentData] = ...]: the first two elements of an
    array, [undefined] where it is shorter; what is not an array is not
    destructured. *)
Definition destructure2 (v : Value) : option (Value * Value) :=
  match v with
  | VArr xs => Some (nth 0 xs VUndefined, nth 1 xs VUndefined)
  | _ => None
  end.

(** The rest of the [try] block of [getBlogData] after [await]. *)
Definition blog_resume : Handler :=
  fun result =>
    match destructure2 result with
    | Some (postData, commentData) =>
        ([log [postData]; log [commentData]; log [VStr "fetch complete"]],
         Normal VUndefined)
    | None =>
        ([error [VStr "Error fetching blog data"; VStr "TypeError"]],
         Normal VUndefined)
    end.

(** The [catch] block of [getBlogData]. *)
Definition blog_catch : Handler :=
  fun err =>
    ([error [VStr "Error fetching blog data"; err]], Normal VUndefined).

(** [async function getBlogData()], with the two fetches as parameters. *)
Definition getBlogData_with (post comment : M pid) :
    M (pid * pid * pid * pid) :=
  let* _ := exec (write [log [VStr "Fetching blog data"]]) in
  let* p1 := post in
  let* p2 := comment in
  let* both := promise_all [p1; p2] in
  let* finished :=
    await_ both blog_resume blog_catch in
  ret (p1, p2, both, finished).

Definition getBlogData : M (pid * pid * pid * pid) :=
  getBlogData_with fetchPostData fetchCommentData.

End JS.

(* ===================================================================== *)
(** ** memoize (closures chapter, "Memoization") *)
(* ===================================================================== *)

Module Memo.

(** The private [cache] is the object literal [{}]: its own properties are
    the entries stored by [cache[x] = result], and its prototype is
    [Object.prototype]. The [in] operator and the property read [cache[x]]
    both follow the prototype chain, so the names below are found in every
    such object. *)
Definition object_prototype_keys : list string :=
  ["constructor"; "hasOwnProperty"; "isPrototypeOf"; "propertyIsEnumerable";
   "toLocaleString"; "toString"; "valueOf"; "__proto__";
   "__defineGetter__"; "__defineSetter__"; "__lookupGetter__";
   "__lookupSetter__"].

Definition inherited_key (k : string) : bool :=
  bool_decide (k ∈ object_prototype_keys).

(** What a call of the memoized function hands back: a result of [fn] that
    is an own property of the cache, the member of [Object.prototype] found
    under an inherited name, or [undefined]. *)
Inductive Returned (Result : Type) :=
| Own (r : Result)
| Inherited (name : string)
| Undefined.
Global Arguments Own {Result} r.
Global Arguments Inherited {Result} name.
Global Arguments Undefined {Result}.

Section memoize.
Context {Arg Result World : Type}.

(** The argument [x] is used as a property key, that is through its
    conversion to a string. *)
Variable to_property_key : Arg → string.

(** The memoized function, for calls that return: it may read and change
    the world outside the closure, but has no access to [cache]. A call
    that ends in an exception stores nothing and is not modelled. *)
Variable fn : Arg → World → Result * World.

(** The closure state together with what surrounds it. [calls] records the
    arguments [fn] has been invoked with, oldest first. *)
Record State := mkState {
  cache : gmap string Result;
  console : list string;
  calls : list Arg;
  world : World;
}.

(** [x in cache] *)
Definition has_property (c : gmap string Result) (k : string) : bool :=
  match c !! k with
  | Some _ => true
  | None => inherited_key k
  end.

(** [cache[x]] *)
Definition get (c : gmap string Result) (k : string) : Returned Result :=
  match c !! k with
  | Some r => Own r
  | None => if inherited_key k then Inherited k else Undefined
  end.

(** [function memoize(fn) { const cache = {}; return function(x) {...} }] *)
Definition memoize (w : World) : State :=
  {| cache := ∅; console := []; calls := []; world := w |}.

(** The function returned by [memoize(fn)], applied to [x]. *)
Definition memoized (x : Arg) (st : State) : Returned Result * State :=
  let k := to_property_key x in
  if has_property (cache st) k then
    (get (cache st) k,
     {| cache := cache st;
        console := console st ++ ["Fetching from cache"];
        calls := calls st;
        world := world st |})
  else
    let '(result, w) := fn x (world st) in
    (Own result,
     {| cache := <[k := result]> (cache st);
        console := console st ++ ["Calculating result"];
        calls := calls st ++ [x];
        world := w |}).

(** Several lookups in a row, results dropped. *)
Definition lookups (xs : list Arg) (st : State) : State :=
  foldl (fun s x => (memoized x s).2) st xs.

End memoize.

Global Arguments State : clear implicits.

(** [const square = memoize(function(x) { return x * x; });] on integers,
    whose property key is their decimal notation. *)
Definition square (x : Z) (w : unit) : Z * unit := ((x * x)%Z, w).

Definition square_memoized : Z → State Z Z unit → Returned Z * State Z Z unit :=
  memoized pretty square.


(** A memoized function of a string argument: the key is the string. *)
Definition length_memoized :
    string → State string Z unit → Returned Z * State string Z unit :=
  memoized id (fun s w => (Z.of_nat (String.length s), w)).

(** A memoized producer of promises: the world outside the closure is the
    promise runtime, a result is a reference to a promise. [failing] makes
    a promise and rejects it at once. *)
Definition failing (x : string) : JS.M JS.pid :=
  JS.bind JS.new_promise (fun p =>
  JS.bind (JS.exec (JS.reject_promise p (JS.VStr x))) (fun _ =>
  JS.ret p)).

Definition failing_memoized :
    string → State string JS.pid JS.State →
    Returned JS.pid * State string JS.pid JS.State :=
  memoized id failing.

End Memo.

(* ===================================================================== *)
(** ** counter and createButtonHandler (closures chapter) *)
(* ===================================================================== *)

Module Closures.
Local Open Scope Z_scope.

(** The object returned by [counter()]: the private variable [count] its
    three methods share, and the numbers they write with [console.log]. *)
Record Counter := mkCounter {
  count : Z;
  console : list Z;
}.

(** [function counter() { let count = 0; return {...}; }] *)
Definition counter : Counter := {| count := 0; console := [] |}.

(** [increment: function() { count++; console.log(count); }] *)
Definition increment (c : Counter) : Counter :=
  let count' := count c + 1 in
  {| count := count'; console := console c ++ [count'] |}.

(** [decrement: function() { count--; console.log(count); }] *)
Definition decrement (c : Counter) : Counter :=
  let count' := count c - 1 in
  {| count := count'; console := console c ++ [count'] |}.

(** [getCount: function() { return count; }] *)
Definition getCount (c : Counter) : Z := count c.

Inductive Call := Increment | Decrement.

Definition call (m : Call) (c : Counter) : Counter :=
  match m with
  | Increment => increment c
  | Decrement => decrement c
  end.

Definition run (ms : list Call) (c : Counter) : Counter :=
  foldl (fun c m => call m c) c ms.

(** What a call adds to the count. *)
Definition delta (m : Call) : Z :=
  match m with Increment => 1 | Decrement => -1 end.

(** How many of the calls are [increment], and how many [decrement]. *)
Definition increments (ms : list Call) : Z :=
  foldr (fun m s => match m with Increment => 1 + s | Decrement => s end) 0 ms.

Definition decrements (ms : list Call) : Z :=
  foldr (fun m s => match m with Decrement => 1 + s | Increment => s end) 0 ms.

(** The script under [counter]: three calls, and [getCount] logged. *)
Definition myCounter : Counter :=
  let c := run [Increment; Increment; Decrement] counter in
  {| count := count c; console := console c ++ [getCount c] |}.

(** The closures made by [createButtonHandler] so far, each with the
    [buttonId] it was made for and its own [buttonClickedCount]; a handler is
    known by its position. *)
Record Buttons := mkButtons {
  handlers : list (Z * Z);
  lines : list string;
}.

Definition no_buttons : Buttons := {| handlers := []; lines := [] |}.

(** [function createButtonHandler(buttonId) { let buttonClickedCount = 0;
     return function() {...}; }] *)
Definition createButtonHandler (buttonId : Z) (st : Buttons) : nat * Buttons :=
  (length (handlers st),
   {| handlers := handlers st ++ [(buttonId, 0)]; lines := lines st |}).

(** The line [`Button ${buttonId} clicked ${buttonClickedCount} times`]. *)
Definition clicked_line (buttonId buttonClickedCount : Z) : string :=
  "Button " +:+ pretty buttonId +:+ " clicked " +:+ pretty buttonClickedCount
    +:+ " times".

(** The function returned by [createButtonHandler], called: for a position
    no handler was made at there is nothing to call. *)
Definition click (h : nat) (st : Buttons) : Buttons :=
  match handlers st !! h with
  | Some (buttonId, buttonClickedCount) =>
      let buttonClickedCount' := buttonClickedCount + 1 in
      {| handlers := <[h := (buttonId, buttonClickedCount')]> (handlers st);
         lines := lines st ++ [clicked_line buttonId buttonClickedCount'] |}
  | None => st
  end.

(** Handlers are made for the buttons [ids], then clicked in the order
    [clicks]. *)
Definition create_all (ids : list Z) (st : Buttons) : Buttons :=
  foldl (fun s id => (createButtonHandler id s).2) st ids.

Definition click_all (clicks : list nat) (st : Buttons) : Buttons :=
  foldl (fun s h => click h s) st clicks.

(** How often handler [h] is among [clicks]. *)
Definition clicks_of (h : nat) (clicks : list nat) : Z :=
  Z.of_nat (length (filter (fun h' => h' = h) clicks)).

End Closures.

(* ===================================================================== *)
(** ** myIterator (iterators chapter, "Creating a Custom Iterator") *)
(* ===================================================================== *)

Module Iterators.
Local Open Scope Z_scope.







End Iterators.

(* ===================================================================== *)
(** ** More of the promise scripts *)
(* ===================================================================== *)

Module Async.
Import JS.

(** *** Outcomes along a chain *)





(** *** A promise settled by its executor *)

(** [let myPromise = new Promise((resolve, reject) => { let success = true;
     if (success) {...} else {...} });]: the executor runs inside
    [new Promise]. *)
Definition myPromise : M pid :=
  let* p := new_promise in
  let success := true in
  let* _ := exec (if success
                  then resolve_promise p (VStr "The operation was successful!")
                  else reject_promise p (VStr "Something went wrong!")) in
  ret p.

(** [myPromise.then(result => {...}).catch(error => {...});] *)
Definition myPromise_handled : M (pid * pid * pid) :=
  let* p := myPromise in
  let* d := then_ p (Some (CbUser on_result)) None in
  let* c := catch_ d (CbUser on_error_log) in
  ret (p, d, c).

(** *** The event loop example *)

Definition inside_setTimeout : Handler :=
  fun _ => ([log [VStr "Inside setTimeout"]], Normal VUndefined).

(** [console.log("Start"); setTimeout(() => {...}, 0); console.log("End");]
    with the delay as a parameter. *)
Definition start_end (delay : nat) : M unit :=
  let* _ := exec (write [log [VStr "Start"]]) in
  let* _ := set_timeout (mkTask (CbUser inside_setTimeout) VUndefined) delay in
  exec (write [log [VStr "End"]]).

End Async.

(* ===================================================================== *)
(** ** Theorems: BankAccount *)
(* ===================================================================== *)

Module BankFacts.
Import Bank.
Local Open Scope Z_scope.

Example myAccount_balance : getBalance myAccount = 120.
Proof. reflexivity. Qed.

Example myAccount_console :
  console myAccount =
    ["Deposited: 50, New Balance: 150"; "Withdrew: 30, New Balance: 120"].
Proof. vm_compute. reflexivity. Qed.


Lemma run_snoc cs c acct : run (cs ++ [c]) acct = call c (run cs acct).
Proof. unfold run. by rewrite foldl_app. Qed.








(** *** What the guard of [withdraw] does and does not cover *)









End BankFacts.

(* ===================================================================== *)
(** ** Theorems: promises *)
(* ===================================================================== *)

Module JSFacts.
Import JS.

Implicit Types (st : State) (p d : pid) (o : Outcome) (v r : Value).

(** *** The scripts, run from the empty state *)

Example script_run :
  let '(p, d, st) := run_script script in
  state_at st p = Fulfilled data_fetched ∧
  state_at st d = Fulfilled VUndefined ∧
  console st = [log [data_fetched]; log [VStr "Tech-Code_"]] ∧
  jobs st = [] ∧ timers st = [].
Proof. vm_compute. done. Qed.

Example getBlogData_run :
  let '(p1, p2, both, finished, st) := run_script getBlogData in
  state_at st both =
    Fulfilled (VArr [VStr "Post Data fetched"; VStr "Comment data fetched."]) ∧
  console st =
    [log [VStr "Fetching blog data"]; log [VStr "Post Data fetched"];
     log [VStr "Comment data fetched."]; log [VStr "fetch complete"]].
Proof. vm_compute. done. Qed.

(** *** Settling *)

Lemma state_at_lookup st p rec :
  promises st !! p = Some rec → state_at st p = pstate rec.
Proof. unfold state_at. by intros ->. Qed.

Lemma settle_pending st p o rs :
  promises st !! p = Some (mkPromise Pending rs) →
  settle p o st =
    set_jobs (jobs st ++ ((fun x => mkJob x o) <$> rs))
      (set_promises (<[p := mkPromise (state_of o) []]> (promises st)) st).
Proof. unfold settle. by intros ->. Qed.

Lemma settle_settled st p o :
  state_at st p ≠ Pending → settle p o st = st.
Proof.
  unfold state_at, settle. destruct (promises st !! p) as [[[] rs]|]; done.
Qed.


Lemma state_of_not_pending o : state_of o ≠ Pending.
Proof. by destruct o. Qed.


Lemma state_at_settle_other st p q o :
  p ≠ q → state_at (settle p o st) q = state_at st q.
Proof.
  intros Hne. unfold settle.
  destruct (promises st !! p) as [[[] rs]|] eqn:Hrec; try done.
  unfold state_at. simpl. by rewrite list_lookup_insert_ne.
Qed.


Lemma set_promises_id st : set_promises (promises st) st = st.
Proof. by destruct st. Qed.

(** Settling a promise nobody has registered with changes its record only. *)
Lemma settle_quiet st p o s :
  promises st !! p = Some (mkPromise s []) →
  settle p o st =
    set_promises (<[p := mkPromise (settle_state s o) []]> (promises st)) st.
Proof.
  intros H. unfold settle. rewrite H. destruct s; simpl.
  - rewrite app_nil_r. by destruct st.
  - by rewrite list_insert_id, set_promises_id.
  - by rewrite list_insert_id, set_promises_id.
Qed.

(** *** The job queue runs dry *)

Lemma sum_list_insert {A} (f : A → nat) (l : list A) i x y :
  l !! i = Some y →
  sum_list (f <$> <[i := x]> l) + f y = sum_list (f <$> l) + f x.
Proof.
  revert i. induction l as [|a l IH]; intros [|i] Hi; simplify_eq/=.
  - lia.
  - specialize (IH _ Hi). lia.
Qed.

Lemma weight_settle st p o : weight (settle p o st) = weight st.
Proof.
  unfold settle. destruct (promises st !! p) as [[[] rs]|] eqn:Hrec; try done.
  unfold weight. simpl. rewrite length_app, length_fmap.
  pose proof (sum_list_insert (fun rec => length (reactions rec)) _ _
                (mkPromise (state_of o) []) _ Hrec) as H.
  simpl in H. lia.
Qed.

Lemma weight_all_countdown a st : weight (all_countdown a st) = weight st.
Proof.
  unfold all_countdown. destruct (alls st !! a) as [rec|]; [|done].
  case_decide; [|done]. unfold resolve_promise. by rewrite weight_settle.
Qed.

Lemma weight_all_resolve_element a i v st :
  weight (all_resolve_element a i v st) = weight st.
Proof.
  unfold all_resolve_element. destruct (alls st !! a) as [rec|]; [|done].
  destruct (all_values rec !! i) as [[?|]|]; try done.
  by rewrite weight_all_countdown.
Qed.

Lemma weight_call_callback cb arg st :
  weight (call_callback cb arg st).2 = weight st.
Proof.
  destruct cb as [h|p|p|a i]; simpl.
  - by destruct (h arg).
  - apply weight_settle.
  - apply weight_settle.
  - apply weight_all_resolve_element.
Qed.

Lemma weight_settle_with d c st : weight (settle_with d c st) = weight st.
Proof. apply weight_settle. Qed.

Lemma weight_run_job j st : weight (run_job j st) = weight st.
Proof.
  unfold run_job. destruct (job_outcome j) as [v|e].
  - destruct (on_fulfilled (job_reaction j)) as [cb|]; [|apply weight_settle].
    pose proof (weight_call_callback cb v st) as H.
    destruct (call_callback cb v st) as [c st']. simpl in H.
    by rewrite weight_settle_with.
  - destruct (on_rejected (job_reaction j)) as [cb|]; [|apply weight_settle].
    pose proof (weight_call_callback cb e st) as H.
    destruct (call_callback cb e st) as [c st']. simpl in H.
    by rewrite weight_settle_with.
Qed.

Lemma run_jobs_nil fuel st : jobs st = [] → run_jobs fuel st = st.
Proof. intros H. destruct fuel; simpl; [done|]. by rewrite H. Qed.

Lemma drain_nil st : jobs st = [] → drain st = st.
Proof. apply run_jobs_nil. Qed.

Lemma weight_pop st j js :
  jobs st = j :: js → weight st = S (weight (run_job j (set_jobs js st))).
Proof. intros H. rewrite weight_run_job. unfold weight. rewrite H. done. Qed.

(** Draining is running the first job and draining what it leaves. *)
Lemma drain_cons st j js :
  jobs st = j :: js → drain st = drain (run_job j (set_jobs js st)).
Proof.
  intros H. unfold drain at 1. rewrite (weight_pop _ _ _ H). simpl.
  by rewrite H.
Qed.

(** [drain] ends with an empty job queue: the fuel it takes is enough. *)
Lemma drain_jobs st : jobs (drain st) = [].
Proof.
  unfold drain. generalize (Nat.le_refl (weight st)).
  generalize (weight st) at 2 3 as n. intros n. revert st.
  induction n as [|n IH]; intros st Hw; simpl.
  - unfold weight in Hw. destruct (jobs st); [done | simpl in Hw; lia].
  - destruct (jobs st) as [|j js] eqn:Hj; [done|].
    apply IH. rewrite (weight_pop _ _ _ Hj) in Hw. lia.
Qed.


Lemma fire_next st i : next_timer (timers st) = Some i → fire st = fire_at i st.
Proof. unfold fire. by intros ->. Qed.

(** *** The event loop runs dry *)

Lemma timers_settle p o st : timers (settle p o st) = timers st.
Proof. unfold settle. by destruct (promises st !! p) as [[[] rs]|]. Qed.

Lemma timers_all_countdown a st : timers (all_countdown a st) = timers st.
Proof.
  unfold all_countdown. destruct (alls st !! a) as [rec|]; [|done].
  case_decide; [|done]. unfold resolve_promise. by rewrite timers_settle.
Qed.

Lemma timers_call_callback cb arg st :
  timers (call_callback cb arg st).2 = timers st.
Proof.
  destruct cb as [h|p|p|a i]; simpl.
  - by destruct (h arg).
  - apply timers_settle.
  - apply timers_settle.
  - unfold all_resolve_element. destruct (alls st !! a) as [rec|]; [|done].
    destruct (all_values rec !! i) as [[?|]|]; try done.
    by rewrite timers_all_countdown.
Qed.

Lemma timers_run_job j st : timers (run_job j st) = timers st.
Proof.
  unfold run_job, settle_with, resolve_promise, reject_promise.
  destruct (job_outcome j) as [v|e].
  - destruct (on_fulfilled (job_reaction j)) as [cb|]; [|apply timers_settle].
    pose proof (timers_call_callback cb v st) as H.
    destruct (call_callback cb v st) as [c st']. by rewrite timers_settle.
  - destruct (on_rejected (job_reaction j)) as [cb|]; [|apply timers_settle].
    pose proof (timers_call_callback cb e st) as H.
    destruct (call_callback cb e st) as [c st']. by rewrite timers_settle.
Qed.

Lemma timers_run_jobs fuel : ∀ st, timers (run_jobs fuel st) = timers st.
Proof.
  induction fuel as [|fuel IH]; intros st; simpl; [done|].
  destruct (jobs st) as [|j js]; [done|]. by rewrite IH, timers_run_job.
Qed.

Lemma next_timer_from_lt ts : ∀ best best_due i,
  best < i → next_timer_from best best_due i ts < i + length ts.
Proof.
  induction ts as [|t ts IH]; intros best best_due i Hlt; simpl; [lia|].
  case_decide.
  - specialize (IH i (due t) (S i)). lia.
  - specialize (IH best best_due (S i)). lia.
Qed.

(** A turn of the event loop takes one timer away and leaves no job. *)
Lemma fire_timers st :
  timers st ≠ [] →
  length (timers (fire st)) = length (timers st) - 1 ∧ jobs (fire st) = [].
Proof.
  intros Hne. unfold fire, next_timer.
  destruct (timers st) as [|t ts] eqn:Hts; [done|].
  pose proof (next_timer_from_lt ts 0 (due t) 1) as Hlt.
  set (i := next_timer_from 0 (due t) 1 ts) in *.
  unfold fire_at. rewrite Hts.
  destruct (lookup_lt_is_Some_2 (t :: ts) i) as [t' Ht']; [simpl; lia|].
  rewrite Ht'.
  set (st1 := set_clock _ _).
  pose proof (timers_call_callback (task_callback (timer_task t'))
                (task_argument (timer_task t')) st1) as H.
  destruct (call_callback _ _ st1) as [c st2]. simpl in H.
  split; [|apply drain_jobs].
  unfold drain. rewrite timers_run_jobs, H. subst st1. simpl.
  rewrite length_delete by done. simpl. lia.
Qed.

(** [run_script] gives the event loop turns enough: it ends with no job and
    no timer left. *)
Lemma run_script_done {A} (script : M A) :
  jobs (run_script script).2 = [] ∧ timers (run_script script).2 = [].
Proof.
  unfold run_script. destruct (script initial) as [a st]. simpl.
  pose proof (drain_jobs st) as Hj.
  generalize dependent (drain st). clear st. intros st Hj.
  remember (length (timers st)) as n eqn:Hn.
  revert st Hj Hn. induction n as [|n IH]; intros st Hj Hn; simpl.
  - split; [done|]. by apply nil_length_inv.
  - assert (Hne : timers st ≠ []) by (intros E; rewrite E in Hn; done).
    destruct (fire_timers st Hne) as [Hlen Hjobs].
    apply IH; [done | lia].
Qed.

(** *** A settled promise stays as it is *)

Lemma keeps_refl st : keeps st st.
Proof. by intros p. Qed.

Lemma keeps_trans st1 st2 st3 : keeps st1 st2 → keeps st2 st3 → keeps st1 st3.
Proof.
  intros H12 H23 p Hp. rewrite <- (H12 p Hp). apply H23. by rewrite (H12 p Hp).
Qed.

Lemma keeps_same_promises st st' : promises st' = promises st → keeps st st'.
Proof. intros H p _. unfold state_at. by rewrite H. Qed.

Lemma keeps_settle p o st : keeps st (settle p o st).
Proof.
  intros q Hq. destruct (decide (p = q)) as [->|Hne].
  - by rewrite settle_settled.
  - by apply state_at_settle_other.
Qed.

Lemma state_at_settled_lt st p : state_at st p ≠ Pending → p < length (promises st).
Proof.
  unfold state_at. intros H. apply lookup_lt_is_Some.
  destruct (promises st !! p); [eauto | done].
Qed.

Lemma keeps_new_promise st : keeps st (new_promise st).2.
Proof.
  intros q Hq. unfold state_at. simpl.
  by rewrite lookup_app_l by by apply state_at_settled_lt.
Qed.

Lemma then_eq p onF onR st :
  then_ p onF onR st =
    (length (promises st),
     perform_then p (mkReaction onF onR (length (promises st)))
       (new_promise st).2).
Proof. reflexivity. Qed.

Lemma keeps_perform_then p x st : keeps st (perform_then p x st).
Proof.
  unfold perform_then.
  destruct (promises st !! p) as [[[] rs]|] eqn:Hrec;
    try by apply keeps_same_promises.
  intros q Hq. unfold state_at in *. simpl.
  destruct (decide (p = q)) as [->|Hne].
  - rewrite Hrec in Hq. done.
  - by rewrite list_lookup_insert_ne.
Qed.

Lemma keeps_then p onF onR st : keeps st (then_ p onF onR st).2.
Proof.
  rewrite then_eq. simpl.
  eapply keeps_trans; [apply keeps_new_promise | apply keeps_perform_then].
Qed.

Lemma keeps_all_countdown a st : keeps st (all_countdown a st).
Proof.
  unfold all_countdown. destruct (alls st !! a) as [rec|]; [|apply keeps_refl].
  case_decide; [|by apply keeps_same_promises].
  eapply keeps_trans; [|apply keeps_settle]. by apply keeps_same_promises.
Qed.

Lemma keeps_all_resolve_element a i v st : keeps st (all_resolve_element a i v st).
Proof.
  unfold all_resolve_element.
  destruct (alls st !! a) as [rec|]; [|apply keeps_refl].
  destruct (all_values rec !! i) as [[?|]|]; try apply keeps_refl.
  eapply keeps_trans; [|apply keeps_all_countdown]. by apply keeps_same_promises.
Qed.

Lemma keeps_call_callback cb arg st : keeps st (call_callback cb arg st).2.
Proof.
  destruct cb as [h|p|p|a i]; simpl.
  - destruct (h arg). by apply keeps_same_promises.
  - apply keeps_settle.
  - apply keeps_settle.
  - apply keeps_all_resolve_element.
Qed.

Lemma keeps_settle_with d c st : keeps st (settle_with d c st).
Proof. apply keeps_settle. Qed.

Lemma keeps_run_job j st : keeps st (run_job j st).
Proof.
  unfold run_job. destruct (job_outcome j) as [v|e].
  - destruct (on_fulfilled (job_reaction j)) as [cb|]; [|apply keeps_settle].
    pose proof (keeps_call_callback cb v st) as H.
    destruct (call_callback cb v st) as [c st']. simpl in H.
    eapply keeps_trans; [exact H | apply keeps_settle_with].
  - destruct (on_rejected (job_reaction j)) as [cb|]; [|apply keeps_settle].
    pose proof (keeps_call_callback cb e st) as H.
    destruct (call_callback cb e st) as [c st']. simpl in H.
    eapply keeps_trans; [exact H | apply keeps_settle_with].
Qed.

Lemma keeps_run_jobs fuel : ∀ st, keeps st (run_jobs fuel st).
Proof.
  induction fuel as [|fuel IH]; intros st; simpl; [apply keeps_refl|].
  destruct (jobs st) as [|j js]; [apply keeps_refl|].
  eapply keeps_trans; [|apply IH].
  eapply keeps_trans; [|apply keeps_run_job]. by apply keeps_same_promises.
Qed.

Lemma keeps_drain st : keeps st (drain st).
Proof. apply keeps_run_jobs. Qed.

Lemma keeps_fire_at i st : keeps st (fire_at i st).
Proof.
  unfold fire_at. destruct (timers st !! i) as [t|]; [|apply keeps_refl].
  set (st1 := set_clock _ _).
  pose proof (keeps_call_callback (task_callback (timer_task t))
                (task_argument (timer_task t)) st1) as H.
  destruct (call_callback _ _ st1) as [c st2]. simpl in H.
  eapply keeps_trans; [|apply keeps_drain].
  eapply keeps_trans; [|exact H]. by apply keeps_same_promises.
Qed.

Lemma keeps_fire st : keeps st (fire st).
Proof.
  unfold fire. destruct (next_timer (timers st)) as [i|]; [|apply keeps_refl].
  apply keeps_fire_at.
Qed.

Lemma keeps_fire_n n : ∀ st, keeps st (fire_n n st).
Proof.
  induction n as [|n IH]; intros st; simpl; [apply keeps_refl|].
  eapply keeps_trans; [apply keeps_fire | apply IH].
Qed.

Lemma keeps_all_push a st : keeps st (all_push a st).2.
Proof.
  unfold all_push. destruct (alls st !! a); [|apply keeps_refl].
  by apply keeps_same_promises.
Qed.

Lemma all_add_eq a result p st :
  all_add a result p st =
    (tt, (then_ p (Some (CbAllElement a (all_push a st).1))
            (Some (CbReject result)) (all_push a st).2).2).
Proof.
  unfold all_add, bind, ret. by destruct (all_push a st) as [i st1].
Qed.

Lemma all_loop_cons a result p ps st :
  all_loop a result (p :: ps) st =
    all_loop a result ps (all_add a result p st).2.
Proof. simpl. unfold bind. by destruct (all_add a result p st). Qed.

Lemma keeps_all_loop a result ps : ∀ st, keeps st (all_loop a result ps st).2.
Proof.
  induction ps as [|p ps IH]; intros st; [apply keeps_refl|].
  rewrite all_loop_cons. eapply keeps_trans; [|apply IH].
  rewrite all_add_eq. simpl.
  eapply keeps_trans; [apply keeps_all_push | apply keeps_then].
Qed.

Lemma keeps_promise_all ps st : keeps st (promise_all ps st).2.
Proof.
  unfold promise_all, bind, exec, ret. simpl.
  set (st1 := set_alls _ _).
  pose proof (keeps_all_loop (length (alls st)) (length (promises st)) ps st1) as H.
  destruct (all_loop _ _ ps st1) as [[] st2]. simpl in *.
  eapply keeps_trans; [|apply keeps_all_countdown].
  eapply keeps_trans; [|exact H].
  eapply keeps_trans; [apply keeps_new_promise|]. by apply keeps_same_promises.
Qed.

Lemma keeps_race_loop result ps : ∀ st, keeps st (race_loop result ps st).2.
Proof.
  induction ps as [|p ps IH]; intros st; [apply keeps_refl|].
  simpl. unfold bind at 1.
  pose proof (keeps_then p (Some (CbResolve result)) (Some (CbReject result)) st)
    as H.
  destruct (then_ _ _ _ st) as [d st2]. simpl in H.
  eapply keeps_trans; [exact H | apply IH].
Qed.

Lemma keeps_promise_race ps st : keeps st (promise_race ps st).2.
Proof.
  unfold promise_race, bind, ret. simpl.
  set (st1 := set_promises _ _).
  pose proof (keeps_race_loop (length (promises st)) ps st1) as H.
  destruct (race_loop _ ps st1) as [[] st2]. simpl in *.
  eapply keeps_trans; [apply keeps_new_promise | exact H].
Qed.

Lemma keeps_step st st' : step st st' → keeps st st'.
Proof.
  destruct 1.
  - eapply keeps_trans; [|apply keeps_run_job]. by apply keeps_same_promises.
  - apply keeps_fire.
  - apply keeps_settle.
  - apply keeps_new_promise.
  - apply keeps_then.
  - apply keeps_promise_all.
  - apply keeps_promise_race.
  - by apply keeps_same_promises.
  - by apply keeps_same_promises.
Qed.

Lemma keeps_steps st st' : rtc step st st' → keeps st st'.
Proof.
  induction 1 as [|st1 st2 st3 H12 _ IH]; [apply keeps_refl|].
  eapply keeps_trans; [by apply keeps_step | exact IH].
Qed.

(** *** Settling twice *)




(** *** fetchData *)

Lemma fetchData_eq st :
  fetchData st =
    (length (promises st),
     set_timers
       (timers st ++
          [mkTimer (clock st + 3000) (fetchData_timeout (length (promises st)))])
       (set_promises (promises st ++ [mkPromise Pending []]) st)).
Proof. reflexivity. Qed.

(** [fetchData] called where no job and no timer is waiting: its timer is
    the next to fire and fulfils the promise. *)
Lemma fetchData_quiet st :
  jobs st = [] → timers st = [] →
  let r := fetchData st in
  state_at r.2 r.1 = Pending ∧
  state_at (fire (drain r.2)) r.1 = Fulfilled data_fetched ∧
  console (fire (drain r.2)) = console st.
Proof.
  intros Hjobs Htimers r. subst r. rewrite fetchData_eq. cbn [fst snd].
  set (p := length (promises st)). rewrite Htimers. simpl app.
  set (st1 := set_timers _ _).
  assert (Hp : promises st1 !! p = Some (mkPromise Pending [])).
  { subst st1 p. simpl. rewrite lookup_app_r by done. by rewrite Nat.sub_diag. }
  split; [by rewrite (state_at_lookup _ _ _ Hp)|].
  rewrite (drain_nil st1) by done.
  rewrite (fire_next st1 0) by done.
  unfold fire_at. simpl. unfold resolve_promise.
  erewrite (settle_quiet _ p); [|exact Hp]. rewrite drain_nil by done.
  unfold state_at. simpl.
  rewrite list_lookup_insert_eq; [done|]. rewrite length_app. simpl. lia.
Qed.

(** C8. The function [fetchData] hands to [setTimeout] always calls
    [resolve] with "✅ Data fetched successfully", never [reject]; so the
    promise of every call of [fetchData] made where nothing else is waiting
    is pending until its timer fires and is then fulfilled with that string,
    for good; and the script logs the data and "Tech-Code_" and never
    reaches its [catch] handler: nothing is written with [console.error]
    and no promise of the run is rejected. *)
Theorem fetchData_always_fulfils :
  (∀ p, fetchData_timeout p = mkTask (CbResolve p) data_fetched) ∧
  (∀ st, jobs st = [] → timers st = [] →
     let r := fetchData st in
     let st' := fire (drain r.2) in
     state_at r.2 r.1 = Pending ∧
     state_at st' r.1 = Fulfilled data_fetched ∧
     ∀ st'', rtc step st' st'' → state_at st'' r.1 = Fulfilled data_fetched) ∧
  (let '(p, d, st) := run_script script in
   state_at st p = Fulfilled data_fetched ∧
   console st = [log [data_fetched]; log [VStr "Tech-Code_"]] ∧
   Forall (fun e => level e = Log) (console st) ∧
   Forall (fun rec => ∀ r, pstate rec ≠ Rejected r) (promises st) ∧
   jobs st = [] ∧ timers st = []).
Proof.
  split; [done|]. split.
  - intros st Hjobs Htimers r st'.
    destruct (fetchData_quiet st Hjobs Htimers) as (H1 & H2 & _).
    split; [done|]. split; [done|].
    intros st'' Hsteps. subst r st'. rewrite <- H2.
    apply (keeps_steps _ _ Hsteps). by rewrite H2.
  - vm_compute. repeat split; repeat constructor; done.
Qed.

Lemma fetchData_always_fulfils_witness :
  state_at (fire (drain (fetchData initial).2)) (fetchData initial).1 =
    Fulfilled data_fetched.
Proof.
  destruct (proj1 (proj2 fetchData_always_fulfils) initial eq_refl eq_refl)
    as (_ & H & _).
  exact H.
Defined.

(** *** Rejections along a chain *)

Lemma linked_last st q ds e : linked st q ds e → last (q :: ds) = Some e.
Proof.
  induction 1 as [|q h d ds e Hq _ IH]; [done|].
  by rewrite last_cons_cons.
Qed.

Lemma linked_frame st st' q ds e :
  linked st q ds e →
  (∀ x, x ∈ q :: ds → x ≠ e → promises st' !! x = promises st !! x) →
  NoDup (q :: ds) →
  linked st' q ds e.
Proof.
  induction 1 as [|q h d ds e Hq Hl IH]; intros Hsame Hnd; [constructor|].
  apply NoDup_cons in Hnd as [Hq' Hnd].
  econstructor.
  - rewrite Hsame; [done | apply elem_of_cons; by left |].
    intros ->. apply linked_last in Hl. apply last_Some_elem_of in Hl. done.
  - apply IH; [|done]. intros x Hx Hne.
    apply Hsame; [apply elem_of_cons; by right | done].
Qed.

Lemma then_chain_cons p h hs st :
  then_chain p (h :: hs) st =
    then_chain (length (promises st)) hs
      (perform_then p (then_link h (length (promises st))) (new_promise st).2).
Proof. reflexivity. Qed.

Lemma perform_then_pending st p x rs :
  promises st !! p = Some (mkPromise Pending rs) →
  perform_then p x st =
    set_promises (<[p := mkPromise Pending (rs ++ [x])]> (promises st)) st.
Proof. unfold perform_then. by intros ->. Qed.

(** Building a chain on a pending promise without reactions. *)
Lemma then_chain_linked hs : ∀ st q,
  promises st !! q = Some (mkPromise Pending []) →
  let n := length (promises st) in
  let r := then_chain q hs st in
  linked r.2 q (seq n (length hs)) r.1 ∧
  promises r.2 !! r.1 = Some (mkPromise Pending []) ∧
  length (promises r.2) = n + length hs ∧
  jobs r.2 = jobs st ∧ console r.2 = console st ∧
  (∀ x, x < n → x ≠ q → promises r.2 !! x = promises st !! x).
Proof.
  induction hs as [|h hs IH]; intros st q Hq n r; subst n r.
  - simpl. split; [constructor|]. split; [done|]. split; [lia|]. done.
  - rewrite then_chain_cons.
    pose proof (lookup_lt_Some _ _ _ Hq) as Hlt.
    set (n := length (promises st)) in *.
    assert (Hq1 : promises (new_promise st).2 !! q = Some (mkPromise Pending [])).
    { simpl. by rewrite lookup_app_l. }
    rewrite (perform_then_pending _ _ _ _ Hq1). simpl app.
    set (st1 := set_promises _ _).
    assert (Hlen1 : length (promises st1) = S n).
    { subst st1. simpl. rewrite length_insert, length_app. simpl. lia. }
    assert (Hn1 : promises st1 !! n = Some (mkPromise Pending [])).
    { subst st1. simpl. rewrite list_lookup_insert_ne by lia.
      rewrite lookup_app_r by done. by rewrite Nat.sub_diag. }
    destruct (IH st1 n Hn1) as (Hl & He & Hlen & Hjobs & Hcon & Hframe).
    rewrite Hlen1 in *.
    split; [|split; [done|split; [simpl; lia|split; [done|split; [done|]]]]].
    + simpl. econstructor; [|exact Hl].
      rewrite Hframe by lia. subst st1. simpl.
      rewrite list_lookup_insert_eq; [done|]. rewrite length_app. simpl. lia.
    + intros x Hx Hne. rewrite Hframe by lia. subst st1. simpl.
      rewrite list_lookup_insert_ne by done. by rewrite lookup_app_l.
Qed.

Section chain.
Variables (hc : Handler) (r : Value).

Lemma linked_rejects ds : ∀ st q e dc,
  linked st q ds e →
  NoDup (q :: ds) → dc ∉ q :: ds →
  jobs st = [] →
  promises st !! e = Some (mkPromise Pending [catch_link hc dc]) →
  promises st !! dc = Some (mkPromise Pending []) →
  let st' := drain (reject_promise q r st) in
  console st' = console st ++ (hc r).1 ∧
  (∀ x, x ∈ q :: ds → state_at st' x = Rejected r) ∧
  state_at st' dc = state_of (outcome_of (hc r).2) ∧
  jobs st' = [].
Proof.
  induction ds as [|d ds IH]; intros st q e dc Hl Hnd Hdc Hjobs He Hdcrec st';
    subst st'; inversion Hl; subst.
  - unfold reject_promise. rewrite (settle_pending _ _ _ _ He). rewrite Hjobs.
    erewrite drain_cons by reflexivity.
    unfold run_job. simpl. destruct (hc r) as [es c] eqn:Hhc. simpl.
    assert (Hne : e ≠ dc).
    { intros ->. apply Hdc. apply elem_of_cons. by left. }
    unfold settle_with. erewrite settle_pending; last first.
    { simpl. rewrite list_lookup_insert_ne by done. exact Hdcrec. }
    simpl. rewrite drain_nil by done. simpl.
    pose proof (lookup_lt_Some _ _ _ He). pose proof (lookup_lt_Some _ _ _ Hdcrec).
    split; [done|]. split; [|split; [|done]].
    + intros x Hx. apply list_elem_of_singleton in Hx as ->.
      unfold state_at. simpl. rewrite list_lookup_insert_ne by done.
      by rewrite list_lookup_insert_eq.
    + unfold state_at. simpl. rewrite list_lookup_insert_eq; [done|].
      by rewrite length_insert.
  - match goal with H : promises st !! q = Some _ |- _ => rename H into Hq end.
    match goal with H : linked st d ds e |- _ => rename H into Hl' end.
    unfold reject_promise. rewrite (settle_pending _ _ _ _ Hq). rewrite Hjobs.
    erewrite drain_cons by reflexivity.
    unfold run_job. simpl.
    set (st1 := set_jobs [] _).
    apply NoDup_cons in Hnd as [Hq' Hnd].
    assert (Hother : ∀ x, x ≠ q → promises st1 !! x = promises st !! x).
    { intros x Hx. subst st1. simpl. by rewrite list_lookup_insert_ne. }
    assert (He' : e ∈ d :: ds).
    { apply linked_last in Hl'. by apply last_Some_elem_of in Hl'. }
    assert (Hdcq : dc ≠ q ∧ dc ∉ d :: ds) by by apply not_elem_of_cons.
    destruct Hdcq as [Hdcq Hdc'].
    destruct (IH st1 d e dc) as (Hcon & Hrej & Hfin & Hj); try done.
    + eapply linked_frame; [exact Hl' | | done].
      intros x Hx _. apply Hother. by intros ->.
    + rewrite Hother; [done | by intros ->].
    + by rewrite Hother.
    + split; [done|]. split; [|done].
      intros x Hx. apply elem_of_cons in Hx as [->|Hx]; [|by apply Hrej].
      assert (Hq1 : state_at st1 q = Rejected r).
      { unfold state_at. subst st1. simpl. rewrite list_lookup_insert_eq; [done|].
        by eapply lookup_lt_Some. }
      rewrite <- Hq1. eapply keeps_trans; [apply keeps_settle | apply keeps_drain |].
      by rewrite Hq1.
Qed.

Lemma chain_catch_eq p hs st :
  chain_catch p hs hc st =
    let r := then_chain p hs st in
    (length (promises r.2),
     perform_then r.1 (catch_link hc (length (promises r.2))) (new_promise r.2).2).
Proof. unfold chain_catch, bind. by destruct (then_chain p hs st). Qed.

(** C6. A rejection travels along a chain of [then] calls of any length
    to the [catch] at its end without being changed or dropped: every
    promise of the chain is rejected with the reason [r] itself, none of the
    [then] handlers is called, and the [catch] handler is called with [r];
    what the handler returns or throws settles the promise [catch] gave. *)
Theorem rejection_reaches_catch_unchanged (hs : list Handler) st p :
  jobs st = [] →
  promises st !! p = Some (mkPromise Pending []) →
  let built := chain_catch p hs hc st in
  let st' := drain (reject_promise p r built.2) in
  console st' = console st ++ (hc r).1 ∧
  state_at st' p = Rejected r ∧
  (∀ d, length (promises st) ≤ d < built.1 → state_at st' d = Rejected r) ∧
  state_at st' built.1 = state_of (outcome_of (hc r).2) ∧
  jobs st' = [].
Proof.
  intros Hjobs Hp built st'. subst built st'.
  rewrite chain_catch_eq.
  destruct (then_chain_linked hs st p Hp) as (Hl & He & Hlen & Hj & Hcon & Hframe).
  destruct (then_chain p hs st) as [e st1]. simpl in *.
  pose proof (lookup_lt_Some _ _ _ Hp) as Hplt.
  set (n := length (promises st)) in *.
  assert (He1 : promises (new_promise st1).2 !! e = Some (mkPromise Pending [])).
  { simpl. rewrite lookup_app_l; [done|]. by eapply lookup_lt_Some. }
  rewrite (perform_then_pending _ _ _ _ He1). simpl app.
  set (st2 := set_promises _ _).
  assert (Hnd : NoDup (p :: seq n (length hs))).
  { apply NoDup_cons. split; [|apply NoDup_seq].
    rewrite elem_of_seq. lia. }
  assert (Hdc : length (promises st1) ∉ p :: seq n (length hs)).
  { rewrite Hlen. rewrite not_elem_of_cons, elem_of_seq. lia. }
  pose proof (lookup_lt_Some _ _ _ He) as Helt.
  destruct (linked_rejects (seq n (length hs)) st2 p e (length (promises st1)))
    as (H1 & H2 & H3 & H4); try done.
  - eapply linked_frame; [exact Hl | | done].
    intros x Hx Hne. subst st2. simpl.
    rewrite list_lookup_insert_ne by done. rewrite lookup_app_l; [done|].
    rewrite Hlen. apply elem_of_cons in Hx as [->|Hx]; [lia|].
    apply elem_of_seq in Hx. lia.
  - subst st2. simpl. congruence.
  - subst st2. simpl. rewrite list_lookup_insert_eq; [done|].
    rewrite length_app. simpl. lia.
  - subst st2. simpl. rewrite list_lookup_insert_ne by lia.
    rewrite lookup_app_r by done. by rewrite Nat.sub_diag.
  - split; [|split; [|split; [|done]]].
    + rewrite H1. subst st2. simpl. by rewrite Hcon.
    + apply H2. apply elem_of_cons. by left.
    + intros d Hd. apply H2. rewrite elem_of_cons, elem_of_seq. lia.
Qed.

End chain.

Lemma rejection_reaches_catch_unchanged_witness :
  let st := (new_promise initial).2 in
  let built := chain 0 st in
  let st' := drain (reject_promise 0 error_fetching built.2) in
  console st' = [error [error_fetching]] ∧
  state_at st' 1 = Rejected error_fetching ∧
  state_at st' 2 = Rejected error_fetching ∧
  state_at st' built.1 = Fulfilled VUndefined.
Proof.
  intros st built st'.
  destruct (rejection_reaches_catch_unchanged on_error error_fetching
              [on_data; on_value] st 0 eq_refl eq_refl)
    as (H1 & _ & H3 & H4 & _).
  split; [exact H1|]. split; [apply H3; vm_compute; lia|].
  split; [apply H3; vm_compute; lia | exact H4].
Defined.

(** *** Promise.all *)

Lemma unfilled_app slots1 slots2 :
  unfilled (slots1 ++ slots2) = unfilled slots1 + unfilled slots2.
Proof.
  induction slots1 as [|[x|] slots1 IH]; simpl; [done|done|]. by rewrite IH.
Qed.

Lemma unfilled_replicate k : unfilled (replicate k None) = k.
Proof. induction k; simpl; [done|]. by f_equal. Qed.

Lemma unfilled_insert slots i v :
  slots !! i = Some None →
  S (unfilled (<[i := Some v]> slots)) = unfilled slots.
Proof.
  revert i. induction slots as [|[x|] slots IH]; intros [|i] Hi; simplify_eq/=.
  - by apply IH.
  - done.
  - f_equal. by apply IH.
Qed.

Lemma unfilled_zero slots i :
  unfilled slots = 0 → slots !! i ≠ Some None.
Proof.
  revert i. induction slots as [|[x|] slots IH]; intros [|i] H0 Hi;
    simplify_eq/=. by eapply IH.
Qed.

Lemma unfilled_zero_values slots :
  unfilled slots = 0 → ∃ vs, slots = Some <$> vs.
Proof.
  induction slots as [|[x|] slots IH]; simpl; intros H0.
  - by exists [].
  - destruct (IH H0) as [vs ->]. by exists (x :: vs).
  - done.
Qed.


Lemma all_resolve_element_fresh st a i v vals k R :
  alls st !! a = Some (mkAll vals k R) →
  vals !! i = Some None →
  all_resolve_element a i v st =
    let st' := set_alls (<[a := mkAll (<[i := Some v]> vals) (k - 1) R]> (alls st))
                 st in
    if decide (k - 1 = 0)
    then resolve_promise R (array_of (<[i := Some v]> vals)) st'
    else st'.
Proof.
  intros Ha Hi. unfold all_resolve_element. rewrite Ha. simpl. rewrite Hi.
  unfold all_countdown. simpl.
  rewrite list_lookup_insert_eq by by eapply lookup_lt_Some. simpl.
  by rewrite list_insert_insert_eq.
Qed.

Lemma write_nil st : write [] st = st.
Proof. unfold write. rewrite app_nil_r. by destruct st. Qed.

(** The job of a script reaction: the handler for the outcome runs, or the
    outcome passes through where there is none. *)
Lemma run_job_waiter w o st :
  waiter_ok w →
  run_job (mkJob w o) st =
    settle (derived w) (waiter_result w o).2 (write (waiter_result w o).1 st).
Proof.
  intros [Hf Hr]. unfold run_job, waiter_result, react. simpl.
  destruct o as [v|e].
  - destruct (on_fulfilled w) as [[h| | |]|]; try done.
    + simpl. by destruct (h v).
    + by rewrite write_nil.
  - destruct (on_rejected w) as [[h| | |]|]; try done.
    + simpl. by destruct (h e).
    + by rewrite write_nil.
Qed.

(** The jobs of script reactions whose promises nobody waits for: each
    writes its lines, in the order of the queue, and settles its promise. *)
Lemma drain_waiters ws : ∀ st o,
  jobs st = (fun w => mkJob w o) <$> ws →
  Forall waiter_ok ws →
  NoDup (derived <$> ws) →
  (∀ w, w ∈ ws → ∃ s, promises st !! derived w = Some (mkPromise s [])) →
  let st' := drain st in
  jobs st' = [] ∧
  console st' = console st ++ waiters_log ws o ∧
  alls st' = alls st ∧
  (∀ x, x ∉ derived <$> ws → promises st' !! x = promises st !! x) ∧
  (∀ w s, w ∈ ws → promises st !! derived w = Some (mkPromise s []) →
     promises st' !! derived w =
       Some (mkPromise (settle_state s (waiter_result w o).2) [])).
Proof.
  induction ws as [|w ws IH]; intros st o Hjobs Hok Hnd Hquiet st'; subst st'.
  - rewrite drain_nil by done. unfold waiters_log. simpl. rewrite app_nil_r.
    split; [done|]. split; [done|]. split; [done|]. split; [done|].
    intros w s Hw. by apply elem_of_nil in Hw.
  - simpl in Hjobs. rewrite (drain_cons _ _ _ Hjobs).
    inversion Hok as [|? ? Hw Hok']; subst.
    simpl in Hnd. apply NoDup_cons in Hnd as [Hnotin Hnd].
    rewrite (run_job_waiter _ _ _ Hw).
    destruct (Hquiet w) as [s0 Hs0]; [apply elem_of_cons; by left|].
    erewrite (settle_quiet _ (derived w)); [|exact Hs0].
    set (st1 := set_promises _ _).
    pose proof (lookup_lt_Some _ _ _ Hs0) as Hlt.
    assert (Hother : ∀ x, x ≠ derived w → promises st1 !! x = promises st !! x).
    { intros x Hx. subst st1. simpl. by rewrite list_lookup_insert_ne. }
    destruct (IH st1 o) as (Hj & Hc & Ha & Hframe & Hset); try done.
    { intros w' Hw'. rewrite Hother.
      - apply Hquiet. apply elem_of_cons. by right.
      - intros Heq. apply Hnotin. rewrite <- Heq.
        by apply list_elem_of_fmap_2. }
    split; [done|]. split; [|split; [done|split]].
    + rewrite Hc. subst st1. unfold waiters_log. simpl.
      by rewrite <- app_assoc.
    + intros x Hx. simpl in Hx. apply not_elem_of_cons in Hx as [Hx1 Hx2].
      rewrite Hframe by done. by apply Hother.
    + intros w' s Hw' Hs. apply elem_of_cons in Hw' as [->|Hw'].
      * rewrite Hframe by done. subst st1. simpl.
        rewrite list_lookup_insert_eq by done. congruence.
      * assert (Hne : derived w' ≠ derived w).
        { intros Heq. apply Hnotin. rewrite <- Heq.
          by apply list_elem_of_fmap_2. }
        apply Hset; [done|]. by rewrite Hother.
Qed.

(** Settling a promise hands its reactions to the job queue. *)
Lemma settle_waited st R s ws o :
  promises st !! R = Some (mkPromise s (waiting ws s)) →
  settle R o st =
    set_jobs (jobs st ++ ((fun w => mkJob w o) <$> waiting ws s))
      (set_promises (<[R := mkPromise (settle_state s o) []]> (promises st)) st).
Proof.
  intros HR. destruct s; simpl in *.
  - by rewrite (settle_pending _ _ _ _ HR).
  - rewrite settle_settled by by rewrite (state_at_lookup _ _ _ HR).
    rewrite app_nil_r, list_insert_id by done. by destruct st.
  - rewrite settle_settled by by rewrite (state_at_lookup _ _ _ HR).
    rewrite app_nil_r, list_insert_id by done. by destruct st.
Qed.

(** The promise of the call is settled, then the promise [then] returned
    for the member, and the queue is drained: the waiters of the call run. *)
Lemma settle_result_and_drain st R s ws oR d sd :
  jobs st = [] →
  promises st !! R = Some (mkPromise s (waiting ws s)) →
  promises st !! d = Some (mkPromise sd []) →
  d ≠ R →
  Forall waiter_ok ws → NoDup (derived <$> ws) →
  (∀ w, w ∈ ws → derived w ≠ R ∧ derived w ≠ d ∧
     ∃ s', promises st !! derived w = Some (mkPromise s' [])) →
  let st' := drain (settle d (OFulfilled VUndefined) (settle R oR st)) in
  jobs st' = [] ∧ alls st' = alls st ∧
  console st' = console st ++ waiters_log (waiting ws s) oR ∧
  promises st' !! R = Some (mkPromise (settle_state s oR) []) ∧
  (∃ sd', promises st' !! d = Some (mkPromise sd' [])) ∧
  (∀ x, x ≠ R → x ≠ d → x ∉ derived <$> waiting ws s →
     promises st' !! x = promises st !! x) ∧
  (∀ w s', w ∈ waiting ws s →
     promises st !! derived w = Some (mkPromise s' []) →
     promises st' !! derived w =
       Some (mkPromise (settle_state s' (waiter_result w oR).2) [])).
Proof.
  intros Hjobs HR Hd HdR Hok Hnd Hws st'. subst st'.
  pose proof (lookup_lt_Some _ _ _ HR) as HRlt.
  pose proof (lookup_lt_Some _ _ _ Hd) as Hdlt.
  rewrite (settle_waited _ _ _ _ _ HR), Hjobs. simpl app.
  erewrite (settle_quiet _ d); last first.
  { simpl. rewrite list_lookup_insert_ne by done. exact Hd. }
  set (st1 := set_promises _ _).
  assert (Hsub : ∀ w, w ∈ waiting ws s → w ∈ ws).
  { intros w. destruct s; simpl; [done | |]; by intros ?%elem_of_nil. }
  assert (Hok' : Forall waiter_ok (waiting ws s)).
  { destruct s; simpl; [done | |]; constructor. }
  assert (Hnd' : NoDup (derived <$> waiting ws s)).
  { destruct s; simpl; [done | |]; constructor. }
  assert (Hother : ∀ x, x ≠ R → x ≠ d → promises st1 !! x = promises st !! x).
  { intros x ??. subst st1. simpl. by do 2 rewrite list_lookup_insert_ne by done. }
  destruct (drain_waiters (waiting ws s) st1 oR) as (Hj & Hc & Ha & Hframe & Hset);
    try done.
  { intros w Hw. destruct (Hws w (Hsub w Hw)) as (H1 & H2 & s' & Hs').
    exists s'. by rewrite Hother. }
  assert (HnotR : R ∉ derived <$> waiting ws s).
  { intros (w & Heq & Hw)%list_elem_of_fmap.
    destruct (Hws w (Hsub w Hw)) as (H1 & _). congruence. }
  assert (Hnotd : d ∉ derived <$> waiting ws s).
  { intros (w & Heq & Hw)%list_elem_of_fmap.
    destruct (Hws w (Hsub w Hw)) as (_ & H2 & _). congruence. }
  split; [done|]. split; [by rewrite Ha|]. split; [by rewrite Hc|].
  split; [|split; [|split]].
  - rewrite Hframe by done. subst st1. simpl.
    rewrite list_lookup_insert_ne by done.
    by rewrite list_lookup_insert_eq.
  - eexists. rewrite Hframe by done. subst st1. simpl.
    rewrite list_lookup_insert_eq; [done|]. by rewrite length_insert.
  - intros x HxR Hxd Hx. rewrite Hframe by done. by apply Hother.
  - intros w s' Hw Hs'. apply Hset; [done|].
    destruct (Hws w (Hsub w Hw)) as (H1 & H2 & _). by rewrite Hother.
Qed.

Lemma waiting_settle_state ws s o : waiting ws (settle_state s o) = [].
Proof. destruct s; [by destruct o | done | done]. Qed.

Lemma settled_as_settle_state s o :
  settled_as (settle_state s o) = Some (default o (settled_as s)).
Proof. destruct s; [by destruct o | done | done]. Qed.

Section all_step.
Variables (a : nat) (R : pid) (ms : list pid) (ws : list Reaction)
  (c0 : list LogEntry).
Hypothesis Hnd : NoDup ms.
Hypothesis Hlt : ∀ x, x ∈ ms → x < R.

(** After member [i] has been settled (state [S0]), the promise of the call
    is settled with [oR] and the queue is drained: the invariant holds again
    once the state of the promise of the call is shown to fit the members. *)
Lemma all_inv_result_settled vals sR st i m vals' recm oR S0 :
  all_inv a R ms ws c0 vals sR st →
  ms !! i = Some m →
  jobs S0 = [] → console S0 = console st →
  alls S0 !! a = Some (mkAll vals' (unfilled vals') R) →
  promises S0 !! m = Some recm →
  (∀ x, x ≠ m → promises S0 !! x = promises st !! x) →
  length vals' = length vals →
  (∀ j, j ≠ i → vals' !! j = vals !! j) →
  (∃ slot, vals' !! i = Some slot ∧
     ∀ st', promises st' !! m = Some recm → member_ok st' a R i m slot) →
  let st' := drain (settle (R + 1 + i) (OFulfilled VUndefined) (settle R oR S0)) in
  promises st' !! m = Some recm ∧
  (∀ x, x ∈ ms → x ≠ m → promises st' !! x = promises st !! x) ∧
  (result_ok st' ms vals' (settle_state sR oR) →
   all_inv a R ms ws c0 vals' (settle_state sR oR) st').
Proof.
  intros (Hjobs & Ha & Hlen & Hmem & Hder & HR & Hok & Hndw & Hws & Hcon & Hres)
    Hi HjS HcS HaS HmS HoS Hlen' Hvals' Hslot st'.
  assert (HmR : m < R) by (apply Hlt; by eapply list_elem_of_lookup_2).
  assert (Hi' : i < length ms) by by eapply lookup_lt_Some.
  destruct (Hder i Hi') as [sd Hd].
  assert (Hsub : ∀ w, w ∈ waiting ws sR → w ∈ ws).
  { intros w. destruct sR; simpl; [done | |]; by intros ?%elem_of_nil. }
  destruct (settle_result_and_drain S0 R sR ws oR (R + 1 + i) sd)
    as (Hj' & Ha' & Hc' & HR' & Hd' & Hframe & Hset); try done.
  { by rewrite HoS by lia. }
  { by rewrite HoS by lia. }
  { lia. }
  { intros w Hw. destruct (Hws w Hw) as [Hgt Hrec].
    split; [lia|]. split; [lia|]. eexists. rewrite HoS by lia. exact Hrec. }
  fold st' in Hj', Ha', Hc', HR', Hd', Hframe, Hset.
  assert (Hlow : ∀ x, x ≤ R + length ms → x ∉ derived <$> waiting ws sR).
  { intros x Hx (w & Heq & Hw)%list_elem_of_fmap.
    destruct (Hws w (Hsub w Hw)) as [Hgt _]. lia. }
  assert (Hm' : promises st' !! m = Some recm).
  { rewrite Hframe; [done | lia | lia | apply Hlow; lia]. }
  assert (Hmembers : ∀ x, x ∈ ms → x ≠ m → promises st' !! x = promises st !! x).
  { intros x Hx Hne. assert (x < R) by by apply Hlt.
    rewrite Hframe; [by apply HoS | lia | lia | apply Hlow; lia]. }
  split; [done|]. split; [done|]. intros Hres'.
  split; [done|]. split; [by rewrite Ha'|]. split; [congruence|].
  split; [|split; [|split; [|split; [done|split; [done|split; [|split]]]]]].
  - intros j x Hj. destruct (decide (j = i)) as [->|Hne].
    + simplify_eq. destruct Hslot as (slot & Hslot & Hok'). eauto.
    + destruct (Hmem j x Hj) as (slot & Hslot' & Hok').
      exists slot. rewrite Hvals' by done. split; [done|].
      assert (x ≠ m).
      { intros ->. apply Hne. by eapply (NoDup_lookup ms). }
      assert (x ∈ ms) by by eapply list_elem_of_lookup_2.
      unfold member_ok in *. by rewrite Hmembers by done.
  - intros j Hj. destruct (decide (j = i)) as [->|Hne]; [done|].
    rewrite Hframe; [|lia|lia|apply Hlow; lia].
    rewrite HoS by lia. by apply Hder.
  - by rewrite waiting_settle_state.
  - intros w Hw. destruct (Hws w Hw) as [Hgt Hrec]. split; [done|].
    rewrite settled_as_settle_state.
    destruct sR as [|x|e]; simpl in *.
    + rewrite (Hset w Pending); [done | done |]. by rewrite HoS by lia.
    + rewrite Hframe; [|lia|lia|by intros ?%elem_of_nil].
      by rewrite HoS by lia.
    + rewrite Hframe; [|lia|lia|by intros ?%elem_of_nil].
      by rewrite HoS by lia.
  - rewrite Hc', HcS, Hcon, settled_as_settle_state.
    destruct sR as [|x|e]; simpl.
    + by rewrite app_nil_r.
    + unfold waiters_log. simpl. by rewrite app_nil_r.
    + unfold waiters_log. simpl. by rewrite app_nil_r.
  - done.
Qed.

(** One member settles and the queue is drained: the invariant holds again,
    the other members are untouched, and a first rejection rejects the
    call with the reason of the member. *)
Lemma all_step vals sR st m o :
  all_inv a R ms ws c0 vals sR st → m ∈ ms →
  let st' := settle_and_drain (m, o) st in
  ∃ vals' sR',
    all_inv a R ms ws c0 vals' sR' st' ∧
    (∀ x, x ∈ ms → x ≠ m → promises st' !! x = promises st !! x) ∧
    state_at st' m = settle_state (state_at st m) o ∧
    (sR = Pending → state_at st m = Pending →
     ∀ r, o = ORejected r → sR' = Rejected r).
Proof.
  intros Hinv Hm st'. subst st'.
  pose proof Hinv as
    (Hjobs & Ha & Hlen & Hmem & Hder & HR & Hok & Hndw & Hws & Hcon & Hres).
  apply list_elem_of_lookup in Hm as [i Hi].
  destruct (Hmem i m Hi) as (slot & Hslot & Hmok).
  assert (HmR : m < R) by (apply Hlt; by eapply list_elem_of_lookup_2).
  assert (Hi' : i < length ms) by by eapply lookup_lt_Some.
  destruct (Hder i Hi') as [sd Hd].
  unfold settle_and_drain. simpl.
  assert (Hsettled : ∀ s, s ≠ Pending →
            promises st !! m = Some (mkPromise s []) →
            ∃ vals' sR',
              all_inv a R ms ws c0 vals' sR' (drain (settle m o st)) ∧
              (∀ x, x ∈ ms → x ≠ m →
                 promises (drain (settle m o st)) !! x = promises st !! x) ∧
              state_at (drain (settle m o st)) m = settle_state (state_at st m) o ∧
              (sR = Pending → state_at st m = Pending →
               ∀ r, o = ORejected r → sR' = Rejected r)).
  { intros s Hs Hrec.
    assert (Hst : state_at st m = s) by by rewrite (state_at_lookup _ _ _ Hrec).
    rewrite settle_settled by congruence. rewrite drain_nil by done.
    exists vals, sR. split; [done|]. split; [done|]. split.
    - rewrite Hst. by destruct s.
    - intros _ ?. congruence. }
  destruct slot as [v0|]; simpl in Hmok; [by apply (Hsettled (Fulfilled v0))|].
  destruct Hmok as [Hpend|[r0 Hrej]]; [|by apply (Hsettled (Rejected r0))].
  clear Hsettled.
  pose proof (lookup_lt_Some _ _ _ Hpend) as Hmlen.
  pose proof (lookup_lt_Some _ _ _ HR) as HRlen.
  pose proof (lookup_lt_Some _ _ _ Hd) as Hdlen.
  pose proof (lookup_lt_Some _ _ _ Ha) as Halen.
  pose proof (unfilled_insert vals i) as Hunf.
  assert (Hstm : state_at st m = Pending)
    by by rewrite (state_at_lookup _ _ _ Hpend).
  rewrite (settle_pending _ _ _ _ Hpend), Hjobs. simpl.
  erewrite drain_cons by reflexivity.
  unfold run_job. simpl.
  destruct o as [v|r]; simpl.
  - (* the member is fulfilled: its element function runs *)
    specialize (Hunf v Hslot).
    erewrite all_resolve_element_fresh by (simpl; eauto). simpl.
    set (vals' := <[i := Some v]> vals) in *.
    assert (Hk : unfilled vals - 1 = unfilled vals') by lia.
    rewrite Hk.
    assert (Hlen' : length vals' = length vals)
      by (subst vals'; by rewrite length_insert).
    assert (Hvals' : ∀ j, j ≠ i → vals' !! j = vals !! j).
    { intros j Hj. subst vals'. by rewrite list_lookup_insert_ne. }
    assert (Hslot' : vals' !! i = Some (Some v)).
    { subst vals'. rewrite list_lookup_insert_eq; [done|].
      by eapply lookup_lt_Some. }
    unfold settle_with. simpl.
    destruct (decide (unfilled vals' = 0)) as [Hz|Hnz].
    + unfold resolve_promise.
      match goal with |- context [settle R ?oR ?S] => set (S0 := S) end.
      destruct (all_inv_result_settled vals sR st i m vals'
                  (mkPromise (Fulfilled v) []) (OFulfilled (array_of vals')) S0
                  Hinv Hi) as (Hm' & Hmembers & Hrest); try done.
      { subst S0. simpl. rewrite list_lookup_insert_eq by done. by rewrite Hz. }
      { subst S0. simpl. by rewrite list_lookup_insert_eq. }
      { intros x Hx. subst S0. simpl. by rewrite list_lookup_insert_ne. }
      { exists (Some v). split; [done|]. by intros st' Hst'. }
      set (st' := drain _) in *.
      exists vals', (settle_state sR (OFulfilled (array_of vals'))).
      split; [|split; [done|split]].
      * apply Hrest. destruct sR as [|x|r]; simpl in Hres |- *.
        -- done.
        -- destruct Hres as [_ Hres]. lia.
        -- destruct Hres as (x & Hx & Hxr). exists x. split; [done|].
           assert (x ≠ m) by (intros ->; congruence).
           unfold state_at in *. by rewrite Hmembers.
      * by rewrite (state_at_lookup _ _ _ Hm'), Hstm.
      * intros _ _ r Hr. done.
    + erewrite (settle_quiet _ (R + 1 + i)); last first.
      { simpl. rewrite list_lookup_insert_ne by lia. exact Hd. }
      simpl. rewrite drain_nil by done.
      set (st' := set_promises _ _).
      assert (Hm' : promises st' !! m = Some (mkPromise (Fulfilled v) [])).
      { subst st'. simpl. rewrite list_lookup_insert_ne by lia.
        by rewrite list_lookup_insert_eq. }
      assert (Hoth : ∀ x, x ≠ m → x ≠ R + 1 + i →
                 promises st' !! x = promises st !! x).
      { intros x ??. subst st'. simpl.
        by do 2 rewrite list_lookup_insert_ne by done. }
      exists vals', sR. split; [|split; [|split]].
      * split; [done|]. split.
        { subst st'. simpl. by rewrite list_lookup_insert_eq by done. }
        split; [congruence|].
        split; [|split; [|split; [|split; [done|split; [done|split; [|split]]]]]].
        -- intros j x Hj. destruct (decide (j = i)) as [->|Hne].
           ++ simplify_eq. by exists (Some v).
           ++ destruct (Hmem j x Hj) as (slot & Hslotj & Hokj).
              exists slot. rewrite Hvals' by done. split; [done|].
              assert (x ≠ m).
              { intros ->. apply Hne. by eapply (NoDup_lookup ms). }
              assert (x < R) by (apply Hlt; by eapply list_elem_of_lookup_2).
              unfold member_ok in *. by rewrite Hoth by lia.
        -- intros j Hj. destruct (decide (j = i)) as [->|Hne].
           ++ eexists. subst st'. simpl. rewrite list_lookup_insert_eq; [done|].
              by rewrite length_insert.
           ++ rewrite Hoth by lia. by apply Hder.
        -- rewrite Hoth by lia. done.
        -- intros w Hw. destruct (Hws w Hw) as [Hgt Hrec]. split; [done|].
           by rewrite Hoth by lia.
        -- done.
        -- destruct sR as [|x|r]; simpl in Hres |- *.
           ++ split; [lia|]. intros x r Hx.
              destruct (decide (x = m)) as [->|Hne].
              ** by rewrite (state_at_lookup _ _ _ Hm').
              ** assert (x < R) by by apply Hlt.
                 unfold state_at. rewrite Hoth by lia. by apply Hres.
           ++ destruct Hres as [_ Hres]. lia.
           ++ destruct Hres as (x & Hx & Hxr). exists x. split; [done|].
              assert (x ≠ m) by (intros ->; congruence).
              assert (x < R) by by apply Hlt.
              unfold state_at in *. by rewrite Hoth by lia.
      * intros x Hx Hne. assert (x < R) by by apply Hlt. apply Hoth; lia.
      * by rewrite (state_at_lookup _ _ _ Hm'), Hstm.
      * intros _ _ r Hr. done.
  - (* the member is rejected: the reject function of the call runs *)
    unfold reject_promise, settle_with. simpl.
    match goal with |- context [settle R ?oR ?S] => set (S0 := S) end.
    destruct (all_inv_result_settled vals sR st i m vals
                (mkPromise (Rejected r) []) (ORejected r) S0
                Hinv Hi) as (Hm' & Hmembers & Hrest); try done.
    { subst S0. simpl. by rewrite list_lookup_insert_eq. }
    { intros x Hx. subst S0. simpl. by rewrite list_lookup_insert_ne. }
    { exists None. split; [done|]. intros st' Hst'. right. by exists r. }
    set (st' := drain _) in *.
    exists vals, (settle_state sR (ORejected r)).
    split; [|split; [done|split]].
    + apply Hrest. destruct sR as [|x|r']; simpl in Hres |- *.
      * exists m. split; [by eapply list_elem_of_lookup_2|].
        by rewrite (state_at_lookup _ _ _ Hm').
      * destruct Hres as [_ Hres]. pose proof (unfilled_zero _ i Hres). done.
      * destruct Hres as (x & Hx & Hxr). exists x. split; [done|].
        assert (x ≠ m) by (intros ->; congruence).
        unfold state_at in *. by rewrite Hmembers.
    + by rewrite (state_at_lookup _ _ _ Hm'), Hstm.
    + intros -> _ r' [= ->]. done.
Qed.

End all_step.


Lemma all_push_eq st a vals k R :
  alls st !! a = Some (mkAll vals k R) →
  all_push a st =
    (length vals, set_alls (<[a := mkAll (vals ++ [None]) (S k) R]> (alls st)) st).
Proof. unfold all_push. by intros ->. Qed.

Lemma replicate_snoc {A} (x : A) k : replicate k x ++ [x] = replicate (S k) x.
Proof. induction k; simpl; [done|]. by f_equal. Qed.

(** The loop of [Promise.all] over members that are pending and have no
    reactions yet. *)
Lemma all_loop_spec a R ps : ∀ st j,
  alls st !! a = Some (mkAll (replicate j None) (S j) R) →
  length (promises st) = R + 1 + j →
  NoDup ps →
  (∀ x, x ∈ ps → x < R ∧ promises st !! x = Some (mkPromise Pending [])) →
  let st' := (all_loop a R ps st).2 in
  alls st' !! a =
    Some (mkAll (replicate (j + length ps) None) (S (j + length ps)) R) ∧
  length (promises st') = R + 1 + j + length ps ∧
  (∀ i m, ps !! i = Some m →
     promises st' !! m =
       Some (mkPromise Pending [all_reaction a R (j + i) (R + 1 + (j + i))])) ∧
  (∀ i, i < length ps →
     promises st' !! (R + 1 + j + i) = Some (mkPromise Pending [])) ∧
  (∀ x, x < R + 1 + j → x ∉ ps → promises st' !! x = promises st !! x) ∧
  jobs st' = jobs st.
Proof.
  induction ps as [|p ps IH]; intros st j Ha Hlen Hnd Hps st'; subst st'.
  - simpl. rewrite !Nat.add_0_r. split; [done|]. split; [done|].
    split; [done|]. split; [intros; lia|]. done.
  - rewrite all_loop_cons, all_add_eq. cbn [fst snd].
    rewrite (all_push_eq _ _ _ _ _ Ha). cbn [fst snd].
    rewrite length_replicate, replicate_snoc, then_eq. cbn [fst snd].
    apply NoDup_cons in Hnd as [Hp Hnd].
    destruct (Hps p) as [HpR Hprec]; [apply elem_of_cons; by left|].
    set (st1 := set_alls _ st).
    assert (Hp1 : promises (new_promise st1).2 !! p = Some (mkPromise Pending [])).
    { simpl. rewrite lookup_app_l by lia. done. }
    rewrite (perform_then_pending _ _ _ _ Hp1). simpl app.
    set (st2 := set_promises _ _).
    assert (Hlen2 : length (promises st2) = R + 1 + S j).
    { subst st2. simpl. rewrite length_insert, length_app. simpl. lia. }
    assert (Halen : a < length (alls st)) by by eapply lookup_lt_Some.
    destruct (IH st2 (S j)) as (Ha' & Hlen' & Hmem & Hder & Hframe & Hjobs).
    { subst st2 st1. simpl. by rewrite list_lookup_insert_eq. }
    { done. }
    { done. }
    { intros x Hx. destruct (Hps x) as [HxR Hxrec]; [apply elem_of_cons; by right|].
      split; [done|]. subst st2 st1. simpl.
      rewrite list_lookup_insert_ne by (intros ->; done).
      by rewrite lookup_app_l by lia. }
    simpl length.
    replace (j + S (length ps)) with (S j + length ps) by lia.
    split; [done|]. split; [lia|].
    split; [|split; [|split]].
    + intros [|i] m Hi; simpl in Hi.
      * simplify_eq. rewrite Hframe by (done || lia).
        subst st2 st1. simpl. rewrite Nat.add_0_r, Hlen.
        rewrite list_lookup_insert_eq; [done|]. rewrite length_app. simpl. lia.
      * replace (j + S i) with (S j + i) by lia. by apply Hmem.
    + intros [|i] Hi.
      * rewrite Hframe; [|lia|]; last first.
        { intros Hin. destruct (Hps (R + 1 + j + 0)); [|lia].
          apply elem_of_cons. by right. }
        subst st2 st1. simpl.
        rewrite list_lookup_insert_ne by lia.
        rewrite lookup_app_r by lia.
        replace (R + 1 + j + 0 - length (promises st)) with 0 by lia. done.
      * replace (R + 1 + j + S i) with (R + 1 + S j + i) by lia.
        apply Hder. simpl in Hi. lia.
    + intros x Hx Hnotin. apply not_elem_of_cons in Hnotin as [Hxp Hxps].
      rewrite Hframe by (done || lia). subst st2 st1. simpl.
      rewrite list_lookup_insert_ne by done. by rewrite lookup_app_l by lia.
    + rewrite Hjobs. done.
Qed.

Lemma promise_all_eq ms st :
  promise_all ms st =
    (length (promises st),
     all_countdown (length (alls st))
       (all_loop (length (alls st)) (length (promises st)) ms
          (new_all (length (promises st)) (new_promise st).2).2).2).
Proof.
  unfold promise_all, bind, exec, ret. simpl.
  by destruct (all_loop _ _ ms _) as [[] st'].
Qed.

(** Nothing of [Promise.all] writes to the console. *)
Lemma console_perform_then p w st : console (perform_then p w st) = console st.
Proof.
  unfold perform_then. by destruct (promises st !! p) as [[[] rs]|].
Qed.

Lemma console_all_loop a R ps : ∀ st, console (all_loop a R ps st).2 = console st.
Proof.
  induction ps as [|p ps IH]; intros st; [done|].
  rewrite all_loop_cons, IH, all_add_eq, then_eq. cbn [fst snd].
  rewrite console_perform_then. simpl.
  unfold all_push. by destruct (alls st !! a).
Qed.

Lemma console_settle p o st : console (settle p o st) = console st.
Proof. unfold settle. by destruct (promises st !! p) as [[[] rs]|]. Qed.

Lemma console_promise_all ms st : console (promise_all ms st).2 = console st.
Proof.
  rewrite promise_all_eq. cbn [fst snd]. unfold all_countdown.
  destruct (alls _ !! _) as [rec|]; [|by rewrite console_all_loop].
  case_decide; simpl.
  - unfold resolve_promise. rewrite console_settle. simpl.
    by rewrite console_all_loop.
  - by rewrite console_all_loop.
Qed.

(** A call nothing waits for yet. *)
Lemma all_inv_no_waiters a R ms c0 vals s st :
  console st = c0 →
  (jobs st = [] ∧
   alls st !! a = Some (mkAll vals (unfilled vals) R) ∧
   length vals = length ms ∧
   (∀ i m, ms !! i = Some m →
      ∃ slot, vals !! i = Some slot ∧ member_ok st a R i m slot) ∧
   (∀ i, i < length ms →
      ∃ s', promises st !! (R + 1 + i) = Some (mkPromise s' [])) ∧
   promises st !! R = Some (mkPromise s []) ∧
   result_ok st ms vals s) →
  all_inv a R ms [] c0 vals s st.
Proof.
  intros Hcon (Hjobs & Ha & Hlen & Hmem & Hder & HR & Hres).
  split; [done|]. split; [done|]. split; [done|]. split; [done|].
  split; [done|]. split; [by destruct s|].
  split; [constructor|]. split; [constructor|].
  split; [intros w Hw; by apply elem_of_nil in Hw|].
  split; [|done].
  rewrite Hcon. destruct s; simpl; by rewrite ?app_nil_r.
Qed.

(** [Promise.all] on pending members without reactions, in a state with no
    job waiting, establishes the invariant. *)
Lemma promise_all_inv ms st :
  jobs st = [] →
  NoDup ms →
  (∀ m, m ∈ ms → promises st !! m = Some (mkPromise Pending [])) →
  let built := promise_all ms st in
  built.1 = length (promises st) ∧
  (∀ m, m ∈ ms → m < built.1) ∧
  (∀ m, m ∈ ms → state_at built.2 m = Pending) ∧
  all_inv (length (alls st)) built.1 ms [] (console st)
    (replicate (length ms) None)
    (if decide (length ms = 0) then Fulfilled (VArr []) else Pending) built.2.
Proof.
  intros Hjobs Hnd Hms built. subst built. rewrite promise_all_eq. cbn [fst snd].
  set (R := length (promises st)). set (a := length (alls st)).
  assert (HltR : ∀ m, m ∈ ms → m < R).
  { intros m Hm. by eapply lookup_lt_Some, Hms. }
  set (st1 := (new_all R (new_promise st).2).2).
  destruct (all_loop_spec a R ms st1 0) as (Ha & Hlen & Hmem & Hder & Hframe & Hj).
  { subst st1 a. simpl. rewrite lookup_app_r by done. by rewrite Nat.sub_diag. }
  { subst st1 R. simpl. rewrite length_app. simpl. lia. }
  { done. }
  { intros x Hx. split; [by apply HltR|]. subst st1. simpl.
    rewrite lookup_app_l by by apply HltR. by apply Hms. }
  cbn [fst snd] in *. simpl in Ha, Hlen, Hmem, Hder.
  set (st2 := (all_loop a R ms st1).2) in *.
  assert (HR2 : promises st2 !! R = Some (mkPromise Pending [])).
  { rewrite Hframe; [|lia|intros HR; apply HltR in HR; lia].
    subst st1 R. simpl. rewrite lookup_app_r by done. by rewrite Nat.sub_diag. }
  assert (Hj2 : jobs st2 = []) by (rewrite Hj; subst st1; done).
  split; [done|]. split; [done|].
  unfold all_countdown. rewrite Ha. simpl. rewrite Nat.sub_0_r.
  destruct (decide (length ms = 0)) as [Hz|Hnz].
  - apply nil_length_inv in Hz. subst ms.
    unfold resolve_promise. erewrite (settle_quiet _ R); [|exact HR2].
    pose proof (lookup_lt_Some _ _ _ Ha) as Halt.
    pose proof (lookup_lt_Some _ _ _ HR2) as HRlt.
    set (st3 := set_promises _ _).
    assert (Ha3 : alls st3 !! a = Some (mkAll [] 0 R)).
    { subst st3. cbn [alls set_promises set_alls].
      by rewrite list_lookup_insert_eq. }
    assert (HR3 : promises st3 !! R = Some (mkPromise (Fulfilled (VArr [])) [])).
    { subst st3. cbn [promises set_promises set_alls].
      by rewrite list_lookup_insert_eq. }
    split; [intros m Hm; by apply elem_of_nil in Hm|].
    apply all_inv_no_waiters.
    { subst st3 st2. simpl. by rewrite ?console_all_loop. }
    split; [done|]. split; [done|]. split; [done|].
    split; [intros i m Hi; done|].
    split; [intros i Hi; simpl in Hi; lia|].
    split; [done|]. done.
  - simpl. pose proof (lookup_lt_Some _ _ _ Ha).
    assert (Hpend : ∀ m, m ∈ ms → state_at st2 m = Pending).
    { intros m Hm. apply list_elem_of_lookup in Hm as [i Hi].
      by rewrite (state_at_lookup _ _ _ (Hmem i m Hi)). }
    split; [done|].
    apply all_inv_no_waiters.
    { subst st2. simpl. by rewrite console_all_loop. }
    split; [done|]. split.
    { simpl. rewrite list_lookup_insert_eq by done.
      by rewrite unfilled_replicate. }
    split; [by rewrite length_replicate|].
    split.
    { intros i m Hi. exists None. split.
      - apply lookup_replicate_2. by eapply lookup_lt_Some.
      - simpl. left. by apply Hmem. }
    split.
    { intros i Hi. exists Pending. simpl.
      replace (R + 1 + i) with (R + 1 + 0 + i) by lia. by apply Hder. }
    split; [done|]. simpl. rewrite unfilled_replicate.
    split; [lia|]. intros m r Hm. unfold state_at in *. simpl.
    by rewrite Hpend.
Qed.

Lemma keeps_schedule evs : ∀ st, keeps st (run_schedule evs st).
Proof.
  induction evs as [|e evs IH]; intros st; [apply keeps_refl|].
  simpl. eapply keeps_trans; [|apply IH]. unfold settle_and_drain.
  eapply keeps_trans; [apply keeps_settle | apply keeps_drain].
Qed.

(** A function of the script registers with the promise of the call, by
    [then] or by [await]; the job this may set off is run. *)
Lemma all_inv_register a R ms ws c0 vals s st onF onR :
  (∀ x, x ∈ ms → x < R) →
  all_inv a R ms ws c0 vals s st →
  script_handler onF → script_handler onR →
  let r := then_ R onF onR st in
  r.1 = length (promises st) ∧
  (∀ y, y ∈ ms → promises (drain r.2) !! y = promises st !! y) ∧
  all_inv a R ms (ws ++ [mkReaction onF onR r.1]) c0 vals s (drain r.2).
Proof.
  intros Hlt
    (Hjobs & Ha & Hlen & Hmem & Hder & HR & Hok & Hndw & Hws & Hcon & Hres)
    HonF HonR r. subst r. rewrite then_eq. cbn [fst snd].
  split; [done|].
  set (fin := length (promises st)). set (w := mkReaction onF onR fin).
  pose proof (lookup_lt_Some _ _ _ HR) as HRlt.
  assert (Hfin : R + length ms < fin).
  { destruct (decide (length ms = 0)) as [Hz|Hnz]; [subst fin; lia|].
    destruct (Hder (length ms - 1)) as [s' Hs']; [lia|].
    apply lookup_lt_Some in Hs'. subst fin. lia. }
  assert (Hwok : waiter_ok w) by done.
  assert (Hfresh : fin ∉ derived <$> ws).
  { intros (w' & Heq & Hw')%list_elem_of_fmap.
    destruct (Hws w' Hw') as [_ Hrec]. apply lookup_lt_Some in Hrec.
    subst fin. lia. }
  assert (Hndw' : NoDup (derived <$> (ws ++ [w]))).
  { rewrite fmap_app. apply NoDup_app. split; [done|]. split.
    - intros x Hx ->%list_elem_of_singleton. done.
    - apply NoDup_singleton. }
  assert (Hok' : Forall waiter_ok (ws ++ [w])).
  { apply Forall_app. split; [done|]. by constructor. }
  set (st1 := (new_promise st).2).
  assert (Hold : ∀ x, x < fin → promises st1 !! x = promises st !! x).
  { intros x Hx. subst st1. simpl. by rewrite lookup_app_l. }
  assert (Hnew : promises st1 !! fin = Some (mkPromise Pending [])).
  { subst st1 fin. simpl. rewrite lookup_app_r by done. by rewrite Nat.sub_diag. }
  assert (HR1 : promises st1 !! R = Some (mkPromise s (waiting ws s))).
  { by rewrite Hold by lia. }
  assert (Hsettled : ∀ o, settled_as s = Some o →
    perform_then R w st1 = set_jobs (jobs st1 ++ [mkJob w o]) st1 →
    (∀ y, y ∈ ms →
       promises (drain (perform_then R w st1)) !! y = promises st !! y) ∧
    all_inv a R ms (ws ++ [w]) c0 vals s (drain (perform_then R w st1))).
  { intros o Ho ->.
    assert (Hwait : ∀ l, waiting l s = []) by (by destruct s).
    rewrite Hwait in HR.
    destruct (drain_waiters [w] (set_jobs (jobs st1 ++ [mkJob w o]) st1) o)
      as (Hj' & Hc' & Ha' & Hframe & Hset).
    { subst st1. simpl. by rewrite Hjobs. }
    { by constructor. }
    { simpl. apply NoDup_singleton. }
    { intros w' ->%list_elem_of_singleton. by eexists. }
    set (st2 := drain _) in *.
    assert (Hoth : ∀ y, y < fin → promises st2 !! y = promises st !! y).
    { intros y Hy. rewrite Hframe; [by apply Hold|].
      simpl. intros ->%list_elem_of_singleton. lia. }
    split.
    { intros y Hy. apply Hoth. apply Hlt in Hy. lia. }
    split; [done|]. split; [by rewrite Ha'|]. split; [done|].
    split; [|split; [|split; [|split; [done|split; [done|split; [|split]]]]]].
    + intros i m Hi. destruct (Hmem i m Hi) as (slot & Hslot & Hmok).
      exists slot. split; [done|].
      assert (m < R) by (apply Hlt; by eapply list_elem_of_lookup_2).
      unfold member_ok in *. by rewrite Hoth by lia.
    + intros i Hi. rewrite Hoth by lia. by apply Hder.
    + rewrite Hwait, Hoth by lia. done.
    + rewrite Ho. intros w' [Hw'| ->%list_elem_of_singleton]%elem_of_app.
      * destruct (Hws w' Hw') as [Hgt Hrec]. split; [done|].
        rewrite Ho in Hrec. rewrite Hoth; [done|by eapply lookup_lt_Some].
      * split; [done|]. rewrite (Hset w Pending); [done | by constructor | done].
    + rewrite Hc'. simpl. rewrite Hcon, Ho. unfold waiters_log.
      rewrite fmap_app, concat_app. simpl. by rewrite <- app_assoc.
    + destruct s as [|x|e]; [done| |]; simpl in Hres |- *.
      * done.
      * destruct Hres as (m & Hm & Hmr). exists m. split; [done|].
        assert (m < R) by by apply Hlt.
        unfold state_at in *. by rewrite Hoth by lia. }
  destruct s as [|x|e]; unfold waiting in HR1.
  - (* pending: the reaction waits *)
    rewrite (perform_then_pending _ _ _ _ HR1).
    rewrite drain_nil by done.
    set (st2 := set_promises _ _).
    assert (Hoth : ∀ y, y ≠ R → y < fin → promises st2 !! y = promises st !! y).
    { intros y ??. subst st2. simpl. rewrite list_lookup_insert_ne by done.
      by apply Hold. }
    split.
    { intros y Hy. apply Hlt in Hy. apply Hoth; lia. }
    split; [done|]. split; [done|]. split; [done|].
    split; [|split; [|split; [|split; [done|split; [done|split; [|split]]]]]].
    + intros i m Hi. destruct (Hmem i m Hi) as (slot & Hslot & Hmok).
      exists slot. split; [done|].
      assert (m < R) by (apply Hlt; by eapply list_elem_of_lookup_2).
      unfold member_ok in *. by rewrite Hoth by lia.
    + intros i Hi. rewrite Hoth by lia. by apply Hder.
    + subst st2. simpl. rewrite list_lookup_insert_eq; [done|].
      rewrite length_app. simpl. lia.
    + intros w' [Hw'| ->%list_elem_of_singleton]%elem_of_app.
      * destruct (Hws w' Hw') as [Hgt Hrec]. split; [done|].
        simpl in *. rewrite Hoth; [done | lia | by eapply lookup_lt_Some].
      * split; [done|]. subst st2. simpl.
        rewrite list_lookup_insert_ne by (subst fin; lia). done.
    + done.
    + destruct Hres as [Hpos Hnorej]. split; [done|].
      intros m r Hm. specialize (Hnorej m r Hm).
      apply list_elem_of_lookup in Hm as [i Hi].
      destruct (Hmem i m Hi) as (slot & Hslot & Hmok).
      assert (m < R) by (apply Hlt; by eapply list_elem_of_lookup_2).
      unfold state_at in *. by rewrite Hoth by lia.
  - (* fulfilled already: the reaction runs at once *)
    apply (Hsettled (OFulfilled x)); [done|].
    unfold perform_then. by rewrite HR1.
  - apply (Hsettled (ORejected e)); [done|].
    unfold perform_then. by rewrite HR1.
Qed.

(** The invariant along a schedule of member settlements; a member pending
    before the schedule ends in the state its first settlement gives. *)
Lemma all_schedule a R ms ws c0 evs :
  NoDup ms → (∀ x, x ∈ ms → x < R) →
  ∀ vals sR st,
  all_inv a R ms ws c0 vals sR st →
  Forall (fun e => e.1 ∈ ms) evs →
  ∃ vals' sR',
    all_inv a R ms ws c0 vals' sR' (run_schedule evs st) ∧
    (∀ x, x ∈ ms → state_at st x = Pending →
       state_at (run_schedule evs st) x = scheduled x evs).
Proof.
  intros Hnd Hlt. induction evs as [|[m o] evs IH]; intros vals sR st Hinv Hevs.
  - exists vals, sR. split; [done|]. by intros x _ Hp.
  - inversion Hevs as [|? ? Hm Hevs']; subst. simpl in Hm.
    destruct (all_step a R ms ws c0 Hnd Hlt vals sR st m o Hinv Hm)
      as (vals1 & sR1 & Hinv1 & Hframe & Hst & _).
    destruct (IH vals1 sR1 _ Hinv1 Hevs') as (vals2 & sR2 & Hinv2 & Hmem).
    exists vals2, sR2. split; [done|].
    intros x Hx Hpend. unfold scheduled. simpl.
    destruct (decide (m = x)) as [->|Hne].
    + rewrite Hpend in Hst. simpl in Hst. rewrite <- Hst.
      apply keeps_schedule. rewrite Hst. apply state_of_not_pending.
    + apply Hmem; [done|]. unfold state_at in *.
      by rewrite Hframe.
Qed.



(** From the invariant: the call is fulfilled only when every member is. *)
Lemma all_inv_only_when_all a R ms ws c0 vals x st :
  all_inv a R ms ws c0 vals (Fulfilled x) st →
  Forall (fun m => ∃ v, state_at st m = Fulfilled v) ms.
Proof.
  intros (Hjobs & Ha & Hlen & Hmem & Hder & HR & _ & _ & _ & _ & [_ Hz]).
  apply Forall_lookup. intros i m Hi.
  destruct (Hmem i m Hi) as (slot & Hslot & Hok).
  destruct slot as [v|]; simpl in Hok.
  - exists v. by rewrite (state_at_lookup _ _ _ Hok).
  - by apply (unfilled_zero _ i) in Hz.
Qed.

(** [await p] in a [try] block: the function resumes with [k] when [p] is
    fulfilled and with the [catch] block [kerr] when it is rejected. *)
Lemma first_outcome_fulfilled x evs o :
  Forall (fun e => ∃ v, e.2 = OFulfilled v) evs →
  first_outcome x evs = Some o → ∃ v, o = OFulfilled v.
Proof.
  induction 1 as [|e evs He _ IH]; simpl; [done|].
  case_decide; [|done]. intros [= <-]. done.
Qed.

(** [Promise.all] over pending members, awaited: the invariant, with the
    awaiting function as the one waiter. *)
Lemma await_all_inv st ms k kerr :
  jobs st = [] → NoDup ms →
  (∀ m, m ∈ ms → promises st !! m = Some (mkPromise Pending [])) →
  let built := promise_all ms st in
  let aw := await_ built.1 k kerr built.2 in
  (∀ m, m ∈ ms → m < built.1) ∧
  (∀ m, m ∈ ms → state_at (drain aw.2) m = Pending) ∧
  ∃ vals s,
    all_inv (length (alls st)) built.1 ms
      [mkReaction (Some (CbUser k)) (Some (CbUser kerr)) aw.1]
      (console st) vals s (drain aw.2).
Proof.
  intros Hjobs Hnd Hms built aw. subst built aw.
  destruct (promise_all_inv ms st Hjobs Hnd Hms) as (HR & Hlt & Hpend & Hinv).
  destruct (all_inv_register _ _ _ _ _ _ _ _ (Some (CbUser k))
              (Some (CbUser kerr)) Hlt Hinv I I) as (Hfin & Hframe & Hinv').
  split; [done|]. split.
  - intros m Hm. rewrite <- (Hpend m Hm). unfold state_at, await_.
    by rewrite Hframe.
  - eauto.
Qed.


(** C3, as amended. In a [Promise.all] over pending members that a function
    awaits in a [try] block, once members have been fulfilled in any number
    and order and a member [m] then rejects with reason [r], the call,
    pending until then, is rejected with [r] itself and the [catch] block of
    the function runs on [r] itself; whatever the other members do
    afterwards leaves the call rejected with [r] and the console as it is,
    and the other members are left as they were; and the call is only ever
    fulfilled when every member is fulfilled. *)
Theorem all_fails_fast st ms evs1 m r evs2 k kerr :
  jobs st = [] → NoDup ms →
  (∀ x, x ∈ ms → promises st !! x = Some (mkPromise Pending [])) →
  Forall (fun e => e.1 ∈ ms) evs1 →
  Forall (fun e => ∃ v, e.2 = OFulfilled v) evs1 →
  m ∈ ms → first_outcome m evs1 = None →
  Forall (fun e => e.1 ∈ ms) evs2 →
  let built := promise_all ms st in
  let aw := await_ built.1 k kerr built.2 in
  let st1 := run_schedule evs1 (drain aw.2) in
  let st2 := settle_and_drain (m, ORejected r) st1 in
  let st3 := run_schedule evs2 st2 in
  (state_at st1 built.1 = Pending ∧ console st1 = console st) ∧
  (state_at st2 built.1 = Rejected r ∧
   console st2 = console st ++ (kerr r).1 ∧
   state_at st2 aw.1 = state_of (outcome_of (kerr r).2)) ∧
  (state_at st3 built.1 = Rejected r ∧ console st3 = console st2) ∧
  (∀ x, x ∈ ms → x ≠ m → state_at st2 x = state_at st1 x) ∧
  (∀ evs x, Forall (fun e => e.1 ∈ ms) evs →
     state_at (run_schedule evs (drain aw.2)) built.1 = Fulfilled x →
     Forall (fun m' =>
               ∃ v, state_at (run_schedule evs (drain aw.2)) m' = Fulfilled v)
       ms).
Proof.
  intros Hjobs Hnd Hms Hevs1 Hful Hm Hfirst Hevs2 built aw st1 st2 st3.
  destruct (await_all_inv st ms k kerr Hjobs Hnd Hms)
    as (Hlt & Hpend & vals0 & s0 & Hinv).
  fold built in Hlt, Hpend, Hinv. fold aw in Hpend, Hinv.
  set (w := mkReaction (Some (CbUser k)) (Some (CbUser kerr)) aw.1) in *.
  destruct (all_schedule _ _ ms _ _ evs1 Hnd Hlt _ _ _ Hinv Hevs1)
    as (vals & sR & Hinv1 & Hmem).
  fold st1 in Hinv1, Hmem.
  assert (Hm1 : state_at st1 m = Pending).
  { rewrite (Hmem m Hm (Hpend m Hm)). unfold scheduled. by rewrite Hfirst. }
  assert (Hnorej : ∀ x r', x ∈ ms → state_at st1 x ≠ Rejected r').
  { intros x r' Hx. rewrite (Hmem x Hx (Hpend x Hx)). unfold scheduled.
    destruct (first_outcome x evs1) as [o|] eqn:Ho; [|done].
    destruct (first_outcome_fulfilled _ _ _ Hful Ho) as [v ->]. done. }
  assert (HsR : sR = Pending).
  { pose proof Hinv1 as (_ & _ & _ & Hmem1 & _ & _ & _ & _ & _ & _ & Hres).
    destruct sR as [|x|r']; simpl in Hres; [done| |].
    - destruct Hres as [_ Hz].
      pose proof Hm as Hm'. apply list_elem_of_lookup in Hm' as [i Hi].
      destruct (Hmem1 i m Hi) as (slot & Hslot & Hok).
      destruct slot as [v|]; simpl in Hok.
      + rewrite (state_at_lookup _ _ _ Hok) in Hm1. done.
      + by apply (unfilled_zero _ i) in Hz.
    - destruct Hres as (x & Hx & Hxr). by apply Hnorej in Hxr. }
  subst sR.
  destruct (all_step _ _ ms _ _ Hnd Hlt _ _ _ m (ORejected r) Hinv1 Hm)
    as (vals2 & sR2 & Hinv2 & Hframe & _ & Hrej).
  rewrite (Hrej eq_refl Hm1 r eq_refl) in Hinv2.
  fold st2 in Hinv2, Hframe.
  destruct (all_schedule _ _ ms _ _ evs2 Hnd Hlt _ _ _ Hinv2 Hevs2)
    as (vals3 & sR3 & Hinv3 & _).
  fold st3 in Hinv3.
  pose proof Hinv1 as (_ & _ & _ & _ & _ & HR1 & _ & _ & _ & Hcon1 & _).
  pose proof Hinv2 as (_ & _ & _ & _ & _ & HR2 & _ & _ & Hws2 & Hcon2 & _).
  pose proof Hinv3 as (_ & _ & _ & _ & _ & HR3 & _ & _ & _ & Hcon3 & _).
  apply state_at_lookup in HR1, HR2, HR3. simpl in HR1, HR2, HR3.
  simpl in Hcon1, Hcon2. rewrite app_nil_r in Hcon1.
  unfold waiters_log in Hcon2. simpl in Hcon2. rewrite app_nil_r in Hcon2.
  assert (HR3' : state_at st3 built.1 = Rejected r).
  { rewrite <- HR2. apply keeps_schedule. by rewrite HR2. }
  split; [done|]. split; [|split; [|split]].
  - split; [done|]. split; [done|].
    destruct (Hws2 w (list_elem_of_here _ _)) as [_ Hrec].
    apply state_at_lookup in Hrec. exact Hrec.
  - split; [done|]. rewrite HR3 in HR3'. rewrite HR3' in Hcon3.
    rewrite Hcon3, Hcon2. unfold waiters_log. simpl. by rewrite app_nil_r.
  - intros x Hx Hne. unfold state_at. by rewrite Hframe.
  - intros evs x Hevs Hx.
    destruct (all_schedule _ _ ms _ _ evs Hnd Hlt _ _ _ Hinv Hevs)
      as (vals' & sR' & Hinv' & _).
    pose proof Hinv' as (_ & _ & _ & _ & _ & HRrec & _).
    rewrite (state_at_lookup _ _ _ HRrec) in Hx. simpl in Hx. subst sR'.
    by eapply all_inv_only_when_all.
Qed.



(** Two pending promises, as two calls of [new Promise] leave them. *)
Lemma two_pending :
  let st := (new_promise (new_promise initial).2).2 in
  jobs st = [] ∧ NoDup [0; 1] ∧
  ∀ m, m ∈ [0; 1] → promises st !! m = Some (mkPromise Pending []).
Proof.
  intros st. split; [done|]. split.
  - apply NoDup_cons. split; [|apply NoDup_singleton].
    by intros ?%list_elem_of_singleton.
  - intros m [->|[->|[]%elem_of_nil]%elem_of_cons]%elem_of_cons; done.
Defined.


Lemma all_fails_fast_witness :
  let st := (new_promise (new_promise initial).2).2 in
  let built := promise_all [0; 1] st in
  let aw := await_ built.1 blog_resume blog_catch built.2 in
  let st2 := settle_and_drain (1, ORejected error_fetching) (drain aw.2) in
  let st3 := run_schedule [(0, OFulfilled data_fetched)] st2 in
  state_at st2 built.1 = Rejected error_fetching ∧
  console st2 = console st ++ (blog_catch error_fetching).1 ∧
  state_at st3 built.1 = Rejected error_fetching ∧
  console st3 = console st2.
Proof.
  intros st built aw st2 st3.
  destruct two_pending as (Hjobs & Hnd & Hms).
  assert (H1 : (1 : pid) ∈ [0; 1]) by repeat constructor.
  assert (Hevs2 : Forall (fun e : pid * Outcome => e.1 ∈ [0; 1])
                    [(0, OFulfilled data_fetched)]) by repeat constructor.
  destruct (all_fails_fast st [0; 1] [] 1 error_fetching
              [(0, OFulfilled data_fetched)] blog_resume blog_catch
              Hjobs Hnd Hms
              (Forall_nil_2 _) (Forall_nil_2 _) H1 eq_refl Hevs2)
    as (_ & (H2 & H2c & _) & (H3 & H3c) & _).
  split; [exact H2|]. split; [exact H2c|]. split; [exact H3 | exact H3c].
Defined.

(** *** Promise.race *)





Section race_step.
Variables (R : pid) (ms : list pid).
Hypothesis Hnd : NoDup ms.
Hypothesis Hlt : ∀ x, x ∈ ms → x < R.



End race_step.


Lemma all_rejects_with_the_reason_itself :
  ¬ all_fails_with_aggregate (new_promise (new_promise initial).2).2 [0; 1] 1
      error_fetching.
Proof. intros (x & Hx & fields & k & -> & _). vm_compute in Hx. done. Qed.

Example getUserData_run :
  let '(p, finished, st) := run_script getUserData in
  state_at st p = Fulfilled user_data ∧
  console st =
    [log [VStr "Fetching user data..."];
     log [VStr "User data fetched successfully"];
     log [VStr "User data: "; user_data]].
Proof. vm_compute. done. Qed.



(** Both run on and are fulfilled with their own value. *)
Example race_example_run :
  let '(ps, first, st) := run_script race_example in
  state_at st first = Fulfilled data_fetched ∧
  Forall (fun m => state_at st m = Fulfilled data_fetched) ps ∧
  console st = [log [data_fetched]].
Proof. vm_compute. repeat constructor. Qed.

Example all_example_run :
  let '(ps, both, st) := run_script all_example in
  state_at st both = Fulfilled (VArr [data_fetched; data_fetched; data_fetched]) ∧
  console st = [log [VArr [data_fetched; data_fetched; data_fetched]]].
Proof. vm_compute. done. Qed.

End JSFacts.

(* ===================================================================== *)
(** ** Theorems: memoize *)
(* ===================================================================== *)

Module MemoFacts.
Import Memo.

(** The two [console.log(square(4))] lines of the chapter. *)
Example square_4_twice :
  let r1 := square_memoized 4%Z (memoize tt) in
  let r2 := square_memoized 4%Z r1.2 in
  r1.1 = Own 16%Z ∧ r2.1 = Own 16%Z ∧
  console r2.2 = ["Calculating result"; "Fetching from cache"] ∧
  calls r2.2 = [4%Z].
Proof. vm_compute. done. Qed.

Section memoize_facts.
Context {Arg Result World : Type}.
Variable to_property_key : Arg → string.
Variable fn : Arg → World → Result * World.

Local Abbreviation State := (State Arg Result World).
Local Abbreviation memoized := (memoized to_property_key fn).
Local Abbreviation lookups := (lookups to_property_key fn).

Implicit Types (st : State) (x : Arg) (k : string).

Lemma get_has_property (c : gmap string Result) k :
  has_property c k = true → get c k ≠ Undefined.
Proof.
  unfold has_property, get. destruct (c !! k); [done|]. by intros ->.
Qed.

(** A hit leaves the cache, the world and the invocation record alone. *)
Lemma memoized_hit x st :
  has_property (cache st) (to_property_key x) = true →
  memoized x st =
    (get (cache st) (to_property_key x),
     {| cache := cache st; console := console st ++ ["Fetching from cache"];
        calls := calls st; world := world st |}).
Proof. intros H. unfold Memo.memoized. by rewrite H. Qed.

(** A miss invokes [fn] once and stores its result. *)
Lemma memoized_miss x st :
  has_property (cache st) (to_property_key x) = false →
  memoized x st =
    (Own (fn x (world st)).1,
     {| cache := <[to_property_key x := (fn x (world st)).1]> (cache st);
        console := console st ++ ["Calculating result"];
        calls := calls st ++ [x];
        world := (fn x (world st)).2 |}).
Proof.
  intros H. unfold Memo.memoized. rewrite H. by destruct (fn x (world st)).
Qed.

(** A property that is found stays found, with the same value, whatever is
    looked up next: entries are only ever added under names not yet found. *)
Lemma memoized_keeps x st k :
  has_property (cache st) k = true →
  has_property (cache (memoized x st).2) k = true ∧
  get (cache (memoized x st).2) k = get (cache st) k.
Proof.
  intros Hk.
  destruct (has_property (cache st) (to_property_key x)) eqn:Hx.
  - by rewrite memoized_hit.
  - rewrite memoized_miss by done. simpl.
    assert (to_property_key x ≠ k) by congruence.
    unfold has_property, get in *. by rewrite lookup_insert_ne.
Qed.



(** The invocation record only grows, and a sequence of lookups invokes
    [fn] for a key that is already found not at all. *)
Lemma lookups_calls xs : ∀ st k,
  has_property (cache st) k = true →
  ∃ new, calls (lookups xs st) = calls st ++ new ∧
         Forall (fun y => to_property_key y ≠ k) new.
Proof.
  induction xs as [|x xs IH]; intros st k Hk.
  - exists []. by rewrite app_nil_r.
  - simpl. destruct (memoized_keeps x st k Hk) as [H1 _].
    destruct (IH _ k H1) as (new & -> & Hnew).
    destruct (has_property (cache st) (to_property_key x)) eqn:Hx.
    + rewrite memoized_hit by done. simpl. by exists new.
    + rewrite memoized_miss by done. simpl. exists (x :: new).
      rewrite <- app_assoc. split; [done|]. constructor; [congruence | done].
Qed.


(** Where [memoize(fn)] does agree with [fn]: for a function whose result
    depends on its argument alone, on arguments that get different keys,
    none of them a name found on [Object.prototype]. *)
Lemma memoized_agrees (f : Arg → Result) x st :
  (∀ y w, (fn y w).1 = f y) →
  Inj (=) (=) to_property_key →
  inherited_key (to_property_key x) = false →
  (∀ y res, cache st !! to_property_key y = Some res → res = f y) →
  (memoized x st).1 = Own (f x) ∧
  (∀ y res, cache (memoized x st).2 !! to_property_key y = Some res → res = f y).
Proof.
  intros Hdet Hinj Hown Hsound.
  destruct (cache st !! to_property_key x) as [res|] eqn:Hx.
  - rewrite memoized_hit by (unfold has_property; by rewrite Hx). simpl.
    unfold get. rewrite Hx. split; [|done]. by rewrite (Hsound x res Hx).
  - rewrite memoized_miss by (unfold has_property; by rewrite Hx). simpl.
    rewrite Hdet. split; [done|]. intros y res.
    destruct (decide (to_property_key x = to_property_key y)) as [Heq|Hne].
    + rewrite Heq, lookup_insert_eq. intros [= <-]. by rewrite (Hinj _ _ Heq).
    + rewrite lookup_insert_ne by done. apply Hsound.
Qed.

End memoize_facts.

Section memoize_promises.
Context {Arg : Type}.
Variable to_property_key : Arg → string.
Variable fn : Arg → JS.State → JS.pid * JS.State.

(** The producer acts on promises the way everything does: what is settled
    stays as it is. *)
Hypothesis fn_keeps : ∀ y w, JS.keeps w (fn y w).2.

Local Abbreviation memoized := (memoized to_property_key fn).
Local Abbreviation lookups := (lookups to_property_key fn).

Lemma memoized_keeps_world x st : JS.keeps (world st) (world (memoized x st).2).
Proof.
  destruct (has_property (cache st) (to_property_key x)) eqn:Hx.
  - rewrite memoized_hit by done. apply JSFacts.keeps_refl.
  - rewrite memoized_miss by done. apply fn_keeps.
Qed.

Lemma lookups_keep_world ys : ∀ st, JS.keeps (world st) (world (lookups ys st)).
Proof.
  induction ys as [|y ys IH]; intros st; [apply JSFacts.keeps_refl|].
  simpl. eapply JSFacts.keeps_trans; [apply memoized_keeps_world | apply IH].
Qed.

Lemma lookups_keep_entry ys : ∀ st k p,
  cache st !! k = Some p → cache (lookups ys st) !! k = Some p.
Proof.
  induction ys as [|y ys IH]; intros st k p Hk; [done|].
  simpl. apply IH.
  destruct (has_property (cache st) (to_property_key y)) eqn:Hy.
  - by rewrite memoized_hit.
  - rewrite memoized_miss by done. simpl.
    rewrite lookup_insert_ne; [done|]. intros <-.
    unfold has_property in Hy. by rewrite Hk in Hy.
Qed.

(** C7. An entry of the cache that is a rejected promise is handed back
    as it is by every later lookup of its key: the lookup is a cache hit
    that does not invoke the producer, the entry stays in the cache and the
    promise stays rejected with the same reason, whatever other lookups are
    made in between. *)
Theorem memoize_rejected_entry_stays x x' (ys : list Arg) st p r :
  cache st !! to_property_key x = Some p →
  JS.state_at (world st) p = JS.Rejected r →
  to_property_key x' = to_property_key x →
  let st1 := lookups ys st in
  let res := memoized x' st1 in
  res.1 = Own p ∧
  calls res.2 = calls st1 ∧ world res.2 = world st1 ∧
  Forall (fun y => to_property_key y ≠ to_property_key x)
    (drop (length (calls st)) (calls res.2)) ∧
  cache res.2 !! to_property_key x = Some p ∧
  JS.state_at (world res.2) p = JS.Rejected r.
Proof.
  intros Hentry Hrej Hkey st1 res. subst st1 res.
  pose proof (lookups_keep_entry ys _ _ _ Hentry) as Hentry1.
  assert (Hhas : has_property (cache st) (to_property_key x) = true).
  { unfold has_property. by rewrite Hentry. }
  destruct (lookups_calls to_property_key fn ys _ _ Hhas) as (new & Hcalls & Hnew).
  rewrite memoized_hit by (unfold has_property; by rewrite Hkey, Hentry1).
  simpl. unfold get. rewrite Hkey, Hentry1.
  do 3 (split; [done|]). split; [|split; [done|]].
  - by rewrite Hcalls, drop_app_length.
  - rewrite <- Hrej. apply lookups_keep_world. by rewrite Hrej.
Qed.

End memoize_promises.

(** *** The chapter's example: [square] on integers *)






Lemma failing_keeps y w : JS.keeps w (failing y w).2.
Proof.
  unfold failing, JS.bind, JS.exec, JS.ret. simpl.
  eapply JSFacts.keeps_trans;
    [apply JSFacts.keeps_new_promise | apply JSFacts.keeps_settle].
Qed.

Lemma memoize_rejected_entry_stays_witness :
  let st := (failing_memoized "X" (memoize JS.initial)).2 in
  let res := failing_memoized "X" (lookups id failing ["Y"] st) in
  res.1 = Own 0 ∧
  JS.state_at (world res.2) 0 = JS.Rejected (JS.VStr "X") ∧
  calls res.2 = ["X"; "Y"].
Proof.
  intros st res.
  assert (Hentry : cache st !! id "X" = Some 0) by (vm_compute; reflexivity).
  assert (Hrej : JS.state_at (world st) 0 = JS.Rejected (JS.VStr "X"))
    by (vm_compute; reflexivity).
  destruct (memoize_rejected_entry_stays id failing failing_keeps "X" "X" ["Y"]
              st 0 (JS.VStr "X") Hentry Hrej eq_refl)
    as (H1 & _ & _ & _ & _ & H6).
  split; [exact H1|]. split; [exact H6|]. vm_compute. reflexivity.
Defined.


(** C9, at the input where it fails. The first call of a memoized
    function with the argument ["toString"], on a fresh cache: the name is
    found on the prototype of the cache, so the call reports a cache hit,
    does not invoke [fn], and returns the inherited member and not the
    value of [fn], here the length 8. *)
Lemma memoize_inherited_key_is_not_fn :
  let r := length_memoized "toString" (memoize tt) in
  r.1 = Inherited "toString" ∧ r.1 ≠ Own 8%Z ∧
  calls r.2 = [] ∧ console r.2 = ["Fetching from cache"].
Proof. vm_compute. done. Qed.

(** *** The cache as a ledger of the invocations *)

Section memoize_more.
Context {Arg Result World : Type}.
Variable to_property_key : Arg → string.
Variable fn : Arg → World → Result * World.

Local Abbreviation State := (State Arg Result World).
Local Abbreviation memoized := (memoized to_property_key fn).
Local Abbreviation lookups := (lookups to_property_key fn).

Implicit Types (st : State) (x : Arg) (k : string).

Lemma lookups_snoc xs x st :
  lookups (xs ++ [x]) st = (memoized x (lookups xs st)).2.
Proof. unfold Memo.lookups. by rewrite foldl_app. Qed.

(** What the cache of a memoized function holds at any time: one entry for
    each invocation of [fn], under the key of its argument, none of them
    under a name found on [Object.prototype]; and one line on the console
    for each call. *)
Lemma lookups_ledger w xs :
  let st := lookups xs (memoize w) in
  NoDup (to_property_key <$> calls st) ∧
  (∀ k, is_Some (cache st !! k) ↔ k ∈ to_property_key <$> calls st) ∧
  (∀ k, k ∈ to_property_key <$> calls st ↔
        k ∈ to_property_key <$> xs ∧ inherited_key k = false) ∧
  length (console st) = length xs ∧
  length (filter (fun line => line = "Calculating result") (console st)) =
    length (calls st).
Proof.
  induction xs as [|x xs IH] using rev_ind.
  - simpl. split; [constructor|]. split.
    { intros k. rewrite lookup_empty. split; [by intros [? ?]|].
      by intros ?%elem_of_nil. }
    split; [|done]. intros k. split; [by intros ?%elem_of_nil|].
    by intros [?%elem_of_nil _].
  - intros st. subst st. rewrite lookups_snoc.
    destruct IH as (Hnd & Hcache & Hkeys & Hlen & Hcount).
    set (st := lookups xs (memoize w)) in *.
    destruct (has_property (cache st) (to_property_key x)) eqn:Hx.
    + rewrite memoized_hit by done. simpl.
      split; [done|]. split; [done|]. split; [|split].
      * intros k. rewrite Hkeys, fmap_app, elem_of_app. simpl.
        rewrite list_elem_of_singleton. split; [tauto|].
        intros [[Hk| ->] Hown]; [done|]. split; [|done].
        apply Hkeys, Hcache. unfold has_property in Hx.
        destruct (cache st !! to_property_key x); [done|congruence].
      * rewrite !length_app. simpl. lia.
      * rewrite filter_app, length_app, Hcount.
        rewrite filter_cons_False by done. simpl. lia.
    + rewrite memoized_miss by done. simpl.
      unfold has_property in Hx.
      destruct (cache st !! to_property_key x) eqn:Hc; [done|].
      rewrite !fmap_app. simpl. split; [|split; [|split; [|split]]].
      * apply NoDup_app. split; [done|]. split; [|apply NoDup_singleton].
        intros k Hk ->%list_elem_of_singleton.
        apply Hcache in Hk. rewrite Hc in Hk. by destruct Hk.
      * intros k. rewrite elem_of_app, list_elem_of_singleton, <- Hcache.
        destruct (decide (k = to_property_key x)) as [->|Hne].
        -- rewrite lookup_insert_eq. split; [by right | by eexists].
        -- rewrite lookup_insert_ne by done. split; [by left|].
           by intros [?|?].
      * intros k. rewrite !elem_of_app, !list_elem_of_singleton, Hkeys.
        split; [|tauto]. intros [[? ?]| ->]; [tauto|]. split; [by right|done].
      * rewrite !length_app. simpl. lia.
      * rewrite filter_app, !length_app, Hcount.
        rewrite filter_cons_True by done. simpl. lia.
Qed.


(** X7. A lookup under a name found on [Object.prototype] never reaches [fn]:
    whatever was looked up before, the call reports a cache hit, hands back
    the inherited member and leaves cache and invocation record alone. *)
Theorem memoize_never_computes_inherited_names (w : World) (xs : list Arg) x :
  inherited_key (to_property_key x) = true →
  let st := lookups xs (memoize w) in
  let r := memoized x st in
  r.1 = Inherited (to_property_key x) ∧
  calls r.2 = calls st ∧ cache r.2 = cache st ∧ world r.2 = world st ∧
  console r.2 = console st ++ ["Fetching from cache"].
Proof.
  intros Hin st r. subst r.
  destruct (lookups_ledger w xs) as (_ & Hcache & Hkeys & _).
  fold st in Hcache, Hkeys.
  assert (Hnone : cache st !! to_property_key x = None).
  { destruct (cache st !! to_property_key x) as [res|] eqn:Hc; [|done].
    assert (Hsome : is_Some (cache st !! to_property_key x)) by (by eexists).
    apply Hcache, Hkeys in Hsome as [_ Hown]. congruence. }
  rewrite memoized_hit by (unfold has_property; by rewrite Hnone).
  simpl. unfold get. by rewrite Hnone, Hin.
Qed.

(** X8. The memoized function agrees with [fn] wherever it can: for a function
    whose result depends on its argument alone and arguments with different
    keys, a call with an argument whose key is not a name found on
    [Object.prototype] returns the value of [fn], on the first call and on
    every later one, whatever else was looked up before. *)
Theorem memoize_agrees_off_prototype (f : Arg → Result) (w : World)
    (xs : list Arg) x :
  (∀ y w', (fn y w').1 = f y) →
  Inj (=) (=) to_property_key →
  inherited_key (to_property_key x) = false →
  (memoized x (lookups xs (memoize w))).1 = Own (f x).
Proof.
  intros Hdet Hinj Hown.
  assert (Hsound : ∀ y res,
    cache (lookups xs (memoize w)) !! to_property_key y = Some res →
    res = f y).
  { induction xs as [|x' xs IH] using rev_ind.
    - intros y res. simpl. by rewrite lookup_empty.
    - rewrite lookups_snoc. set (st := lookups xs (memoize w)) in *.
      destruct (has_property (cache st) (to_property_key x')) eqn:Hx'.
      + by rewrite memoized_hit.
      + rewrite memoized_miss by done. simpl. intros y res.
        destruct (decide (to_property_key x' = to_property_key y)) as [Heq|Hne].
        * rewrite Heq, lookup_insert_eq. intros [= <-].
          by rewrite Hdet, (Hinj _ _ Heq).
        * rewrite lookup_insert_ne by done. apply IH. }
  by destruct (memoized_agrees to_property_key fn f x _ Hdet Hinj Hown Hsound).
Qed.

End memoize_more.

Lemma memoize_agrees_off_prototype_witness :
  (square_memoized 4%Z (lookups pretty square [5; 4; 6]%Z (memoize tt))).1 =
    Own 16%Z.
Proof.
  assert (Hdet : ∀ (y : Z) (w' : unit), (square y w').1 = (y * y)%Z) by done.
  assert (Hown : inherited_key (pretty 4%Z) = false) by (vm_compute; reflexivity).
  exact (memoize_agrees_off_prototype pretty square (fun y => (y * y)%Z) tt
           [5; 4; 6]%Z 4%Z Hdet _ Hown).
Defined.

Lemma memoize_never_computes_inherited_names_witness :
  let r := length_memoized "valueOf"
             (lookups id (fun s w => (Z.of_nat (String.length s), w))
                ["abc"; "valueOf"] (memoize tt)) in
  r.1 = Inherited "valueOf" ∧ calls r.2 = ["abc"].
Proof.
  intros r.
  assert (Hin : inherited_key (id "valueOf") = true) by (vm_compute; reflexivity).
  destruct (memoize_never_computes_inherited_names id
              (fun s w => (Z.of_nat (String.length s), w)) tt
              ["abc"; "valueOf"] "valueOf" Hin) as (H1 & H2 & _).
  split; [exact H1|]. subst r. unfold length_memoized. rewrite H2.
  vm_compute. reflexivity.
Defined.

End MemoFacts.

(* ===================================================================== *)
(** ** Theorems: counter and createButtonHandler *)
(* ===================================================================== *)

Module ClosureFacts.
Import Closures.
Local Open Scope Z_scope.

Example myCounter_console : console myCounter = [1; 2; 1; 1].
Proof. reflexivity. Qed.

Lemma counter_run_snoc ms m c : run (ms ++ [m]) c = call m (run ms c).
Proof. unfold run. by rewrite foldl_app. Qed.

Lemma counter_call m c :
  count (call m c) = count c + delta m ∧
  console (call m c) = console c ++ [count c + delta m].
Proof. by destruct m. Qed.

Lemma counter_run ms : ∀ c,
  count (run ms c) = count c + foldr (fun m s => delta m + s) 0 ms ∧
  console (run ms c) =
    console c ++ ((fun k => count (run (take k ms) c)) <$> seq 1 (length ms)).
Proof.
  induction ms as [|m ms IH] using rev_ind; intros c.
  - simpl. split; [lia | by rewrite app_nil_r].
  - rewrite counter_run_snoc.
    destruct (counter_call m (run ms c)) as [Hc Hl].
    destruct (IH c) as [IHc IHl].
    rewrite Hc, Hl, IHc, IHl. split.
    + rewrite foldr_app. simpl.
      assert (Hf : ∀ z l, foldr (fun m s => delta m + s) z l =
                          foldr (fun m s => delta m + s) 0 l + z).
      { intros z l. induction l as [|x l IHl']; simpl; [lia|]. rewrite IHl'. lia. }
      rewrite (Hf (delta m + 0)). lia.
    + rewrite length_app. simpl length.
      replace (length ms + 1)%nat with (S (length ms)) by lia.
      rewrite seq_S, fmap_app, <- app_assoc. f_equal. simpl. f_equal.
      * apply list_fmap_ext. intros i k Hk.
        apply lookup_seq in Hk as [-> Hlt].
        by rewrite take_app_le by lia.
      * replace (1 + length ms)%nat with (length (ms ++ [m])) at 1
          by (rewrite length_app; simpl; lia).
        rewrite firstn_all, counter_run_snoc, Hc, IHc. done.
Qed.

(** X4. A counter counts: after any calls of [increment] and [decrement]
    [getCount] is the number of [increment] calls less the number of
    [decrement] calls, below zero when there are more of the latter; every
    call logs the count it leaves, so the console holds the count after each
    call in turn. *)
Theorem counter_counts (ms : list Call) :
  let c := run ms counter in
  getCount c = increments ms - decrements ms ∧
  console c = (fun k => getCount (run (take k ms) counter)) <$> seq 1 (length ms).
Proof.
  intros c. subst c. destruct (counter_run ms counter) as [Hc Hl].
  split; [|exact Hl]. unfold getCount. rewrite Hc. simpl.
  clear. induction ms as [|m ms IH]; [done|].
  unfold increments, decrements in *. simpl in *. destruct m; simpl; lia.
Qed.

Lemma create_all_spec ids : ∀ st,
  handlers (create_all ids st) = handlers st ++ ((fun id => (id, 0)) <$> ids) ∧
  lines (create_all ids st) = lines st.
Proof.
  induction ids as [|id ids IH]; intros st.
  - simpl. by rewrite app_nil_r.
  - change (create_all (id :: ids) st)
      with (create_all ids (createButtonHandler id st).2).
    destruct (IH (createButtonHandler id st).2) as [-> ->]. simpl.
    by rewrite <- app_assoc.
Qed.

Lemma click_all_snoc clicks h st :
  click_all (clicks ++ [h]) st = click h (click_all clicks st).
Proof. unfold click_all. by rewrite foldl_app. Qed.

Lemma clicks_of_snoc h h' clicks :
  clicks_of h (clicks ++ [h']) =
    clicks_of h clicks + (if decide (h' = h) then 1 else 0).
Proof.
  unfold clicks_of. rewrite filter_app, length_app.
  destruct (decide (h' = h)) as [->|Hne].
  - rewrite filter_cons_True by done. simpl. lia.
  - rewrite filter_cons_False by done. simpl. lia.
Qed.

(** X5. Each handler made by [createButtonHandler] has a click count of its
    own: however the clicks on the buttons are interleaved, a click on a
    handler logs the [buttonId] the handler was made for and the number of
    clicks that handler alone has had so far. *)
Theorem buttons_count_their_own_clicks (ids : list Z) (clicks : list nat) :
  Forall (fun h => (h < length ids)%nat) clicks →
  let st := click_all clicks (create_all ids no_buttons) in
  handlers st = imap (fun h id => (id, clicks_of h clicks)) ids ∧
  lines st =
    imap (fun j h => clicked_line (ids !!! h) (clicks_of h (take (S j) clicks)))
      clicks.
Proof.
  intros Hvalid st. subst st.
  induction clicks as [|h clicks IH] using rev_ind.
  - simpl. destruct (create_all_spec ids no_buttons) as [-> ->]. simpl.
    split; [|done]. apply list_eq. intros i.
    rewrite list_lookup_fmap, list_lookup_imap. by destruct (ids !! i).
  - apply Forall_app in Hvalid as [Hvalid Hh].
    rewrite Forall_singleton in Hh.
    destruct (IH Hvalid) as [IHh IHl]. clear IH.
    rewrite click_all_snoc. unfold click.
    destruct (lookup_lt_is_Some_2 ids h Hh) as [id Hid].
    assert (Hcell : handlers (click_all clicks (create_all ids no_buttons)) !! h
                    = Some (id, clicks_of h clicks)).
    { rewrite IHh, list_lookup_imap, Hid. done. }
    rewrite Hcell. simpl. split.
    + rewrite IHh. apply list_eq. intros i.
      rewrite list_lookup_imap.
      destruct (decide (i = h)) as [->|Hne].
      * rewrite list_lookup_insert_eq by (by rewrite length_imap).
        rewrite Hid. simpl. rewrite clicks_of_snoc.
        by rewrite decide_True.
      * rewrite list_lookup_insert_ne by done.
        rewrite list_lookup_imap. destruct (ids !! i); [|done]. simpl.
        rewrite clicks_of_snoc. rewrite decide_False by done.
        by rewrite Z.add_0_r.
    + rewrite IHl, imap_app. simpl. f_equal.
      * apply imap_ext. intros j h' Hj. simpl.
        rewrite take_app_le; [done|]. apply lookup_lt_Some in Hj. lia.
      * rewrite Nat.add_0_r.
        replace (S (length clicks)) with (length (clicks ++ [h]))
          by (rewrite length_app; simpl; lia).
        rewrite firstn_all, clicks_of_snoc, decide_True by done.
        by rewrite (list_lookup_total_correct _ _ _ Hid).
Qed.

Lemma buttons_count_their_own_clicks_witness :
  let st := click_all [0; 1; 0]%nat (create_all [1; 2] no_buttons) in
  lines st =
    ["Button 1 clicked 1 times"; "Button 2 clicked 1 times";
     "Button 1 clicked 2 times"].
Proof.
  intros st.
  assert (Hvalid : Forall (fun h => (h < length [1; 2])%nat) [0; 1; 0]%nat)
    by (repeat constructor).
  destruct (buttons_count_their_own_clicks [1; 2] [0; 1; 0]%nat Hvalid)
    as [_ Hl].
  subst st. rewrite Hl. vm_compute. reflexivity.
Defined.

End ClosureFacts.

(* ===================================================================== *)
(** ** Theorems: myIterator *)
(* ===================================================================== *)

Module IteratorFacts.
Import Iterators.
Local Open Scope Z_scope.




End IteratorFacts.

(* ===================================================================== *)
(** ** Theorems: more of the promise scripts *)
(* ===================================================================== *)

Module AsyncFacts.
Import JS JSFacts Async.

Implicit Types (st : State) (p d : pid) (o : Outcome) (v r : Value).















(** X12. A handler given to [then] after the promise is settled is still
    called, with the outcome the promise has, but never during the call of
    [then]: the call only puts a job on the queue and returns a pending
    promise; when the job runs the handler writes its lines and its
    completion settles the promise [then] returned. *)
Theorem then_after_settlement st p o rs (onF onR : option Callback) :
  jobs st = [] →
  promises st !! p = Some (mkPromise (state_of o) rs) →
  script_handler onF → script_handler onR →
  let r := then_ p onF onR st in
  let w := mkReaction onF onR r.1 in
  (console r.2 = console st ∧ state_at r.2 r.1 = Pending ∧
   jobs r.2 = [mkJob w o]) ∧
  (console (drain r.2) = console st ++ (waiter_result w o).1 ∧
   state_at (drain r.2) r.1 = state_of (waiter_result w o).2 ∧
   state_at (drain r.2) p = state_of o ∧
   jobs (drain r.2) = []).
Proof.
  intros Hjobs Hp HF HR r w. subst r w. rewrite then_eq. cbn [fst snd].
  set (d := length (promises st)).
  pose proof (lookup_lt_Some _ _ _ Hp) as Hplt.
  assert (Hp1 : promises (new_promise st).2 !! p = Some (mkPromise (state_of o) rs)).
  { simpl. by rewrite lookup_app_l. }
  assert (Hd1 : promises (new_promise st).2 !! d = Some (mkPromise Pending [])).
  { simpl. rewrite lookup_app_r by done. by rewrite Nat.sub_diag. }
  assert (Hthen : perform_then p (mkReaction onF onR d) (new_promise st).2 =
                  set_jobs [mkJob (mkReaction onF onR d) o] (new_promise st).2).
  { unfold perform_then. rewrite Hp1. simpl jobs. rewrite Hjobs.
    by destruct o. }
  rewrite Hthen. split.
  - split; [done|]. split; [|done].
    unfold state_at. cbn [promises set_jobs]. by rewrite Hd1.
  - erewrite drain_cons by reflexivity.
    rewrite run_job_waiter by done. cbn [derived].
    erewrite settle_quiet; last first.
    { cbn [promises write set_jobs]. exact Hd1. }
    rewrite drain_nil by done. cbn [console write set_promises set_jobs].
    split; [done|]. split; [|split; [|done]].
    + unfold state_at. cbn [promises set_promises].
      rewrite list_lookup_insert_eq; [done|].
      simpl. rewrite length_app. simpl. lia.
    + unfold state_at. cbn [promises set_promises].
      rewrite list_lookup_insert_ne by (subst d; lia).
      cbn [promises write set_jobs]. by rewrite Hp1.
Qed.

Lemma then_after_settlement_witness :
  let built := myPromise initial in
  let r := then_ built.1 (Some (CbUser on_result)) None built.2 in
  console r.2 = [] ∧
  console (drain r.2) = [log [VStr "The operation was successful!"]].
Proof.
  intros built r.
  assert (Hp : promises built.2 !! built.1 =
               Some (mkPromise
                       (state_of (OFulfilled (VStr "The operation was successful!")))
                       [])) by reflexivity.
  destruct (then_after_settlement built.2 built.1 _ [] (Some (CbUser on_result))
              None eq_refl Hp I I) as ((H1 & _) & (H2 & _)).
  split; [exact H1 | exact H2].
Defined.

Lemma start_end_eq delay st :
  start_end delay st =
    (tt, write [log [VStr "End"]]
           (set_timers
              (timers st ++
                 [mkTimer (clock st + delay)
                    (mkTask (CbUser inside_setTimeout) VUndefined)])
              (write [log [VStr "Start"]] st))).
Proof. reflexivity. Qed.

(** X13. The function given to [setTimeout] runs after the code that follows
    the call, however short the delay, none at all included: "End" is
    logged before "Inside setTimeout". *)
Theorem timeout_runs_after_the_script (delay : nat) st :
  jobs st = [] → timers st = [] →
  let r := start_end delay st in
  console r.2 = console st ++ [log [VStr "Start"]; log [VStr "End"]] ∧
  console (fire (drain r.2)) =
    console st ++ [log [VStr "Start"]; log [VStr "End"];
                   log [VStr "Inside setTimeout"]] ∧
  timers (fire (drain r.2)) = [] ∧
  clock (fire (drain r.2)) = clock st + delay.
Proof.
  intros Hjobs Htimers r. subst r.
  rewrite start_end_eq. cbn [fst snd].
  set (st1 := write [log [VStr "End"]] _).
  assert (Hjobs1 : jobs st1 = []) by done.
  assert (Htimers1 : timers st1 =
            [mkTimer (clock st + delay)
               (mkTask (CbUser inside_setTimeout) VUndefined)]).
  { subst st1. simpl. by rewrite Htimers. }
  assert (Hcon1 : console st1 =
            console st ++ [log [VStr "Start"]; log [VStr "End"]]).
  { subst st1. simpl. by rewrite <- app_assoc. }
  assert (Hclock1 : clock st1 = clock st) by done.
  clearbody st1.
  split; [done|].
  rewrite drain_nil by done.
  rewrite (fire_next _ 0) by (by rewrite Htimers1).
  unfold fire_at. rewrite Htimers1. simpl. rewrite drain_nil by done. simpl.
  rewrite Hcon1, Hclock1. split; [by rewrite <- !app_assoc|]. split; [done|]. lia.
Qed.

Lemma timeout_runs_after_the_script_witness :
  console (run_script (start_end 0)).2 =
    [log [VStr "Start"]; log [VStr "End"]; log [VStr "Inside setTimeout"]].
Proof.
  destruct (timeout_runs_after_the_script 0 initial eq_refl eq_refl)
    as (_ & H & _).
  exact H.
Defined.

Lemma getUserData_eq st :
  getUserData st =
    let p := length (promises st) in
    let st1 :=
      set_timers
        (timers st ++ [mkTimer (clock st + 3000) (mkTask (CbResolve p) user_data)])
        (set_promises (promises st ++ [mkPromise Pending []])
           (write [log [VStr "Fetching user data..."]] st)) in
    ((p, length (promises st1)),
     perform_then p
       (mkReaction (Some (CbUser user_resume)) (Some (CbUser user_catch))
          (length (promises st1)))
       (new_promise st1).2).
Proof. reflexivity. Qed.

(** X14. [getUserData] called where nothing else is waiting: it logs
    "Fetching user data..." at once and returns with its promise and that of
    [fetchUserData] pending; when the timer fires, 3000 later, the fetch is
    fulfilled with the user data, the function goes on after its [await]
    with that value and logs it, and its promise is fulfilled with
    [undefined]. The [catch] block is never reached: nothing else is
    written. *)
Theorem getUserData_never_fails st :
  jobs st = [] → timers st = [] →
  let r := getUserData st in
  let st' := fire (drain r.2) in
  (console r.2 = console st ++ [log [VStr "Fetching user data..."]] ∧
   state_at r.2 r.1.1 = Pending ∧ state_at r.2 r.1.2 = Pending) ∧
  (state_at st' r.1.1 = Fulfilled user_data ∧
   state_at st' r.1.2 = Fulfilled VUndefined ∧
   console st' =
     console st ++
       [log [VStr "Fetching user data..."];
        log [VStr "User data fetched successfully"];
        log [VStr "User data: "; user_data]] ∧
   clock st' = clock st + 3000 ∧ jobs st' = [] ∧ timers st' = []).
Proof.
  intros Hjobs Htimers r st'. subst r st'.
  rewrite getUserData_eq. cbn zeta. cbn [fst snd].
  set (p := length (promises st)).
  set (st1 := set_timers _ _).
  assert (Hlen1 : length (promises st1) = S p).
  { subst st1. simpl. rewrite length_app. simpl. lia. }
  assert (Hp1 : promises st1 !! p = Some (mkPromise Pending [])).
  { subst st1. simpl. rewrite lookup_app_r by done. by rewrite Nat.sub_diag. }
  rewrite Hlen1.
  assert (Hp2 : promises (new_promise st1).2 !! p = Some (mkPromise Pending [])).
  { cbn [new_promise snd promises set_promises].
    rewrite lookup_app_l by (rewrite Hlen1; lia). exact Hp1. }
  rewrite (perform_then_pending _ _ _ _ Hp2). simpl app.
  set (w := mkReaction _ _ _).
  set (st2 := set_promises _ _).
  assert (Hjobs2 : jobs st2 = []) by (subst st2 st1; done).
  assert (Htimers2 : timers st2 = [mkTimer (clock st + 3000)
                                     (mkTask (CbResolve p) user_data)]).
  { subst st2 st1. simpl. by rewrite Htimers. }
  assert (Hpw : promises st2 !! p = Some (mkPromise Pending [w])).
  { subst st2. cbn [new_promise snd promises set_promises].
    rewrite list_lookup_insert_eq; [done|].
    rewrite length_app, Hlen1. lia. }
  assert (Hfin : promises st2 !! S p = Some (mkPromise Pending [])).
  { subst st2. cbn [new_promise snd promises set_promises].
    rewrite list_lookup_insert_ne by lia.
    rewrite lookup_app_r by (rewrite Hlen1; lia).
    rewrite Hlen1, Nat.sub_diag. done. }
  split.
  - split; [subst st2 st1; done|].
    split; unfold state_at; [by rewrite Hpw | by rewrite Hfin].
  - rewrite drain_nil by done.
    rewrite (fire_next _ 0) by (by rewrite Htimers2).
    unfold fire_at. rewrite Htimers2. cbn [lookup list_lookup].
    cbn [timer_task task_callback task_argument call_callback due].
    unfold resolve_promise.
    set (st3 := set_clock _ _).
    assert (Hpw3 : promises st3 !! p = Some (mkPromise Pending [w])) by done.
    rewrite (settle_pending _ _ _ _ Hpw3).
    assert (Hjobs3 : jobs st3 = []) by done. rewrite Hjobs3. simpl fmap.
    simpl app.
    erewrite drain_cons by reflexivity.
    rewrite run_job_waiter by done. subst w. cbn [derived].
    erewrite settle_quiet; last first.
    { simpl. rewrite list_lookup_insert_ne by lia. exact Hfin. }
    rewrite drain_nil by done.
    pose proof (lookup_lt_Some _ _ _ Hpw). pose proof (lookup_lt_Some _ _ _ Hfin).
    split; [|split; [|split; [|split; [|done]]]].
    + unfold state_at. simpl. rewrite list_lookup_insert_ne by lia.
      by rewrite list_lookup_insert_eq.
    + unfold state_at. simpl. rewrite list_lookup_insert_eq; [done|].
      by rewrite length_insert.
    + subst st3 st2 st1. simpl. by rewrite <- !app_assoc.
    + subst st3 st2 st1. simpl. lia.
Qed.

Lemma getUserData_never_fails_witness :
  state_at (fire (drain (getUserData initial).2)) (getUserData initial).1.2 =
    Fulfilled VUndefined.
Proof.
  destruct (getUserData_never_fails initial eq_refl eq_refl)
    as (_ & (_ & H & _)).
  exact H.
Defined.


Example myPromise_handled_run :
  let '(p, d, c, st) := run_script myPromise_handled in
  state_at st p = Fulfilled (VStr "The operation was successful!") ∧
  state_at st c = Fulfilled VUndefined ∧
  console st = [log [VStr "The operation was successful!"]].
Proof. vm_compute. done. Qed.



End AsyncFacts.
